(** * Ecolink corridor service (src/Ecolink/app.py)

    A shallow embedding of the graph pipeline of app.py: the dataset loader
    and graph builder [load_graph], the Kruskal reducer [kruskal_mst] with
    its union-find closures [find] and [union], the name resolver
    [get_real_node_name] and the query handler [get_corridor].

    The networkx graph is modelled by the two insertion-ordered dictionaries
    networkx keeps ([_node] and [_adj]); the union-find tables [parent] and
    [rank], whose iteration order is never observed, are finite maps.
    Numeric cells of the dataset are integers. *)

From Stdlib Require Import ZArith String Ascii.
From stdpp Require Import base tactics option list relations sorting gmap strings.

Local Open Scope string_scope.
Local Open Scope list_scope.

(** ** Exceptions and results *)

Inductive exn : Type :=
| RuntimeError (msg : string)
| KeyError (key : string)
| NodeNotFound (n : string)
| RecursionError.

Inductive result (A : Type) : Type :=
| Ok (a : A)
| Raise (e : exn).
Arguments Ok {A} a.
Arguments Raise {A} e.

#[global] Instance result_ret : MRet result := fun A a => Ok a.
#[global] Instance result_bind : MBind result :=
  fun A B f m => match m with Ok a => f a | Raise e => Raise e end.

(** ** Insertion-ordered dictionaries (Python [dict] with string keys) *)

Module OrderedDict.

Definition t (V : Type) : Type := list (string * V).

Definition keys {V} (d : t V) : list string := d.*1.

Fixpoint get {V} (d : t V) (k : string) : option V :=
  match d with
  | [] => None
  | (k', v) :: d' => if decide (k' = k) then Some v else get d' k
  end.

(** [d[k] = v]: an existing key keeps its position, a new key goes last. *)
Fixpoint set {V} (d : t V) (k : string) (v : V) : t V :=
  match d with
  | [] => [(k, v)]
  | (k', v') :: d' =>
      if decide (k' = k) then (k, v) :: d' else (k', v') :: set d' k v
  end.

(** [k in d] *)
Definition mem {V} (k : string) (d : t V) : bool :=
  bool_decide (k ∈ keys d).

End OrderedDict.

Abbreviation odict := OrderedDict.t.
Abbreviation oget := OrderedDict.get.
Abbreviation oset := OrderedDict.set.
Abbreviation okeys := OrderedDict.keys.
Abbreviation omem := OrderedDict.mem.

(** ** Strings *)

(** [str.lower] on ASCII text: the letters A..Z are mapped to a..z. *)
Definition lower_ascii (c : ascii) : ascii :=
  let n := nat_of_ascii c in
  if (Nat.leb 65 n && Nat.leb n 90)%bool then ascii_of_nat (n + 32) else c.

Fixpoint lower (s : string) : string :=
  match s with
  | EmptyString => EmptyString
  | String c s' => String (lower_ascii c) (lower s')
  end.

(** ** networkx.Graph *)

Record NodeAttr : Type := mkNodeAttr {
  latitude : option Z;
  longitude : option Z;
  state : option string
}.

Record EdgeAttr : Type := mkEdgeAttr {
  Distance : Z;
  Risk : Z;
  Weight : Z
}.

Definition Edge : Type := (string * string * EdgeAttr)%type.

Record Graph : Type := mkGraph {
  g_node : odict NodeAttr;            (* G._node *)
  g_adj : odict (odict EdgeAttr)      (* G._adj  *)
}.

Module Nx.

(** [nx.Graph()] *)
Definition empty : Graph := {| g_node := []; g_adj := [] |}.

(** [G.nodes], in iteration order. *)
Definition nodes (G : Graph) : list string := okeys (g_node G).

(** [n in G] *)
Definition has_node (G : Graph) (n : string) : bool := omem n (g_node G).

(** The first half of [add_edge]: a new endpoint gets an empty adjacency
    dictionary and an empty attribute dictionary. *)
Definition touch (G : Graph) (u : string) : Graph :=
  if has_node G u then G
  else {| g_node := oset (g_node G) u (mkNodeAttr None None None);
          g_adj := oset (g_adj G) u [] |}.

(** [self._adj[u][v] = dd] *)
Definition set_adj (G : Graph) (u v : string) (dd : EdgeAttr) : Graph :=
  {| g_node := g_node G;
     g_adj := oset (g_adj G) u (oset (default [] (oget (g_adj G) u)) v dd) |}.

(** [G.add_edge(u, v, Distance=.., Risk=.., Weight=..)]. The three
    keywords overwrite whatever attribute dictionary the edge had. *)
Definition add_edge (G : Graph) (u v : string) (dd : EdgeAttr) : Graph :=
  let G := touch G u in
  let G := touch G v in
  let G := set_adj G u v dd in
  set_adj G v u dd.

(** [G[u][v]] *)
Definition get_edge (G : Graph) (u v : string) : option EdgeAttr :=
  nbrs ← oget (g_adj G) u; oget nbrs v.

(** [G.nodes[n][key] = value], as a function on the attribute record. *)
Definition set_node_attr (G : Graph) (n : string)
    (f : NodeAttr -> NodeAttr) : result Graph :=
  match oget (g_node G) n with
  | None => Raise (KeyError n)
  | Some a => Ok {| g_node := oset (g_node G) n (f a); g_adj := g_adj G |}
  end.

(** The iterator behind [G.edges(data=True)]: every adjacency entry whose
    neighbour has not been the outer node yet. *)
Fixpoint edges_from (seen : list string) (adj : odict (odict EdgeAttr))
    : list Edge :=
  match adj with
  | [] => []
  | (n, nbrs) :: rest =>
      ((fun e => (n, e.1, e.2)) <$> filter (fun e => e.1 ∉ seen) nbrs)
      ++ edges_from (n :: seen) rest
  end.

Definition edges (G : Graph) : list Edge := edges_from [] (g_adj G).

End Nx.

(** ** The dataset *)

(** One row of the data frame: its text cells and its numeric cells, each
    keyed by column label. *)
Record Row : Type := mkRow {
  text_cells : odict string;
  num_cells : odict Z
}.

(** What [pd.read_csv] does with a path. *)
Inductive csv_outcome : Type :=
| CsvFrame (rows : list Row)
| CsvFileNotFound
| CsvParserError.

(** [row[col]] *)
Definition row_text (row : Row) (col : string) : result string :=
  match oget (text_cells row) col with
  | Some v => Ok v
  | None => Raise (KeyError col)
  end.

Definition row_num (row : Row) (col : string) : result Z :=
  match oget (num_cells row) col with
  | Some v => Ok v
  | None => Raise (KeyError col)
  end.

Definition with_latitude (v : Z) (a : NodeAttr) : NodeAttr :=
  mkNodeAttr (Some v) (longitude a) (state a).
Definition with_longitude (v : Z) (a : NodeAttr) : NodeAttr :=
  mkNodeAttr (latitude a) (Some v) (state a).
Definition with_state (v : string) (a : NodeAttr) : NodeAttr :=
  mkNodeAttr (latitude a) (longitude a) (Some v).

(** The body of the [for _, row in df.iterrows()] loop. *)
Definition load_row (G : Graph) (row : Row) : result Graph :=
  src ← row_text row "Source";
  dst ← row_text row "Destination";
  dist ← row_num row "Distance (km)";
  risk ← row_num row "Risk Level";
  let weight := (dist + risk * 50)%Z in
  let G := Nx.add_edge G src dst (mkEdgeAttr dist risk weight) in
  v ← row_num row "Source_Latitude";
  G ← Nx.set_node_attr G src (with_latitude v);
  v ← row_num row "Source_Longitude";
  G ← Nx.set_node_attr G src (with_longitude v);
  v ← row_text row "Source_State";
  G ← Nx.set_node_attr G src (with_state v);
  v ← row_num row "Destination_Latitude";
  G ← Nx.set_node_attr G dst (with_latitude v);
  v ← row_num row "Destination_Longitude";
  G ← Nx.set_node_attr G dst (with_longitude v);
  v ← row_text row "Destination_State";
  Nx.set_node_attr G dst (with_state v).

Fixpoint load_rows (G : Graph) (rows : list Row) : result Graph :=
  match rows with
  | [] => Ok G
  | row :: rows' => G' ← load_row G row; load_rows G' rows'
  end.

Definition load_graph (read_csv : string -> csv_outcome) (csv_path : string)
    : result Graph :=
  match read_csv csv_path with
  | CsvFileNotFound => Raise (RuntimeError ("File not found: " +:+ csv_path))
  | CsvParserError => Raise (RuntimeError ("Error parsing CSV: " +:+ csv_path))
  | CsvFrame rows => load_rows Nx.empty rows
  end.

(** ** The MST reducer *)

(** [sorted(edges, key=lambda e: e[2]['Weight'])]: Python's sort is stable,
    so its result is the one of stable insertion. *)
Fixpoint insert_by_weight (e : Edge) (l : list Edge) : list Edge :=
  match l with
  | [] => [e]
  | e' :: l' =>
      if (Weight e.2 <=? Weight e'.2)%Z then e :: e' :: l'
      else e' :: insert_by_weight e l'
  end.

Definition sorted (l : list Edge) : list Edge := foldr insert_by_weight [] l.

(** [parent[u]], [rank[u]] *)
Definition getitem {V} (d : gmap string V) (k : string) : result V :=
  match d !! k with
  | Some v => Ok v
  | None => Raise (KeyError k)
  end.

(** The closure [find]. It mutates [parent], so it returns the new table
    with the representative. [fuel] bounds the depth of the recursion. *)
Fixpoint find (fuel : nat) (parent : gmap string string) (u : string)
    : result (gmap string string * string) :=
  match fuel with
  | O => Raise RecursionError
  | S fuel' =>
      pu ← getitem parent u;
      if decide (pu = u) then Ok (parent, pu)
      else
        '(parent, r) ← find fuel' parent pu;
        let parent := <[u := r]> parent in
        r ← getitem parent u;
        Ok (parent, r)
  end.

(** The closure [union]: new [parent], new [rank] and the returned flag. *)
Definition union (fuel : nat) (parent : gmap string string)
    (rank : gmap string nat) (u v : string)
    : result (gmap string string * gmap string nat * bool) :=
  '(parent, ru) ← find fuel parent u;
  '(parent, rv) ← find fuel parent v;
  if decide (ru = rv) then Ok (parent, rank, false)
  else
    kru ← getitem rank ru;
    krv ← getitem rank rv;
    if Nat.ltb kru krv then Ok (<[ru := rv]> parent, rank, true)
    else
      let parent := <[rv := ru]> parent in
      if Nat.eqb kru krv then Ok (parent, <[ru := kru + 1]> rank, true)
      else Ok (parent, rank, true).

(** The loop [for u, v, attr in edges]. *)
Fixpoint kruskal_loop (fuel : nat) (parent : gmap string string)
    (rank : gmap string nat) (T : Graph) (edges : list Edge)
    : result Graph :=
  match edges with
  | [] => Ok T
  | (u, v, attr) :: edges' =>
      '(parent, rank, joined) ← union fuel parent rank u v;
      let T := if joined : bool then Nx.add_edge T u v attr else T in
      kruskal_loop fuel parent rank T edges'
  end.

Definition kruskal_mst_with (fuel : nat) (G : Graph) : result Graph :=
  let parent : gmap string string :=
    list_to_map ((fun n => (n, n)) <$> Nx.nodes G) in
  let rank : gmap string nat :=
    list_to_map ((fun n => (n, O)) <$> Nx.nodes G) in
  let edges := sorted (Nx.edges G) in
  kruskal_loop fuel parent rank Nx.empty edges.

(** [find] never recurses deeper than the number of edges plus one
    ([find_enough_fuel] below), so this budget is never exhausted. *)
Definition kruskal_mst (G : Graph) : result Graph :=
  kruskal_mst_with (S (length (Nx.edges G))) G.

(** ** The name resolver *)

Section Resolver.

(** [difflib.get_close_matches(word, possibilities, n=1, cutoff=0.8)] *)
Variable get_close_matches : string -> list string -> list string.

(** The [for node in G.nodes] loop: the first node equal to the input up
    to case. *)
Definition exact_match (G : Graph) (user_input : string) : option string :=
  snd <$> list_find (fun node => lower node = user_input) (Nx.nodes G).

Definition get_real_node_name (G : Graph) (user_input : string)
    : option string :=
  let user_input := lower user_input in
  match exact_match G user_input with
  | Some node => Some node
  | None =>
      match get_close_matches user_input (lower <$> Nx.nodes G) with
      | m :: _ =>
          snd <$> list_find (fun n => lower n = m) (Nx.nodes G)
      | [] => None
      end
  end.

End Resolver.

(** ** Shortest paths on the reduced graph *)

(** [nx.shortest_path(T, source, target, weight='Weight')]. networkx is
    outside app.py; this is Dijkstra's algorithm over the adjacency
    dictionaries, keeping for every reached node the best distance found
    and the path that achieves it. Like networkx it answers [[source]]
    at once when both ends coincide, raises [NodeNotFound] for an end that
    is not in the graph and [NetworkXNoPath] for an unreachable target. *)
Module ShortestPath.

Definition tentative : Type := odict (Z * list string).

Definition is_settled (settled : list string) (n : string) : bool :=
  bool_decide (n ∈ settled).

(** The unsettled node with the least tentative distance. *)
Definition pick_min (tent : tentative) (settled : list string)
    : option (string * Z * list string) :=
  fold_left
    (fun best '(n, (d, p)) =>
       if is_settled settled n then best
       else match best with
            | None => Some (n, d, p)
            | Some (_, d', _) => if (d <? d')%Z then Some (n, d, p) else best
            end)
    tent None.

Definition relax (d : Z) (p : list string) (settled : list string)
    (tent : tentative) (nbrs : odict EdgeAttr) : tentative :=
  fold_left
    (fun tent '(v, dd) =>
       if is_settled settled v then tent
       else
         let nd := (d + Weight dd)%Z in
         match oget tent v with
         | Some (old, _) =>
             if (nd <? old)%Z then oset tent v (nd, p ++ [v]) else tent
         | None => oset tent v (nd, p ++ [v])
         end)
    nbrs tent.

Fixpoint rounds (k : nat) (G : Graph) (tent : tentative)
    (settled : list string) : tentative :=
  match k with
  | O => tent
  | S k' =>
      match pick_min tent settled with
      | None => tent
      | Some (u, d, p) =>
          let settled := u :: settled in
          rounds k' G
            (relax d p settled tent (default [] (oget (g_adj G) u)))
            settled
      end
  end.

Inductive outcome : Type :=
| Path (node_list : list string)
| NetworkXNoPath.

Definition shortest_path (G : Graph) (source target : string)
    : result outcome :=
  if negb (Nx.has_node G source) then Raise (NodeNotFound source)
  else if negb (Nx.has_node G target) then Raise (NodeNotFound target)
  else if decide (source = target) then Ok (Path [source])
  else
    let tent :=
      rounds (length (Nx.nodes G)) G [(source, (0%Z, [source]))] [] in
    match oget tent target with
    | Some (_, p) => Ok (Path p)
    | None => Ok NetworkXNoPath
    end.

End ShortestPath.

(** ** The corridor query *)

Record PathEdge : Type := mkPathEdge {
  pe_source : string;
  pe_destination : string;
  pe_distance : Z;
  pe_risk : Z;
  pe_source_state : string;
  pe_destination_state : string;
  pe_source_full : string;
  pe_destination_full : string
}.

Record NodeInfo : Type := mkNodeInfo {
  ni_latitude : Z;
  ni_longitude : Z;
  ni_state : string
}.

(** The JSON document of a reply. *)
Inductive body : Type :=
| ErrorBody (error : string)
| CorridorBody (path : list PathEdge) (nodes : odict NodeInfo)
    (total_distance total_risk : Z).

(** A reply: the document and the HTTP status. *)
Inductive response : Type :=
| Response (b : body) (status : Z).

(** [not x] for a query parameter or a resolved name: absent or empty. *)
Definition falsy (x : option string) : bool :=
  match x with
  | None => true
  | Some EmptyString => true
  | Some (String _ _) => false
  end.

(** [G[u][v]], raising as Python does. *)
Definition edge_data (G : Graph) (u v : string) : result EdgeAttr :=
  match oget (g_adj G) u with
  | None => Raise (KeyError u)
  | Some nbrs =>
      match oget nbrs v with
      | None => Raise (KeyError v)
      | Some dd => Ok dd
      end
  end.

(** [G.nodes[n]] *)
Definition node_data (G : Graph) (n : string) : result NodeAttr :=
  match oget (g_node G) n with
  | None => Raise (KeyError n)
  | Some a => Ok a
  end.

(** [a.get("state", "Unknown")] *)
Definition state_or_unknown (a : NodeAttr) : string :=
  default "Unknown" (state a).

(** [a[key]] for a key that may be missing. *)
Definition attr (key : string) (x : option Z) : result Z :=
  match x with
  | Some v => Ok v
  | None => Raise (KeyError key)
  end.

(** The loop over [zip(node_list, node_list[1:])]. *)
Fixpoint corridor_edges (G : Graph) (pairs : list (string * string))
    (edges : list PathEdge) (total_distance total_risk : Z)
    : result (list PathEdge * Z * Z) :=
  match pairs with
  | [] => Ok (edges, total_distance, total_risk)
  | (u, v) :: pairs' =>
      dd ← edge_data G u v;
      let d := Distance dd in
      let r := Risk dd in
      let total_distance := (total_distance + d)%Z in
      let total_risk := (total_risk + r)%Z in
      au ← node_data G u;
      av ← node_data G v;
      let e :=
        {| pe_source := u;
           pe_destination := v;
           pe_distance := d;
           pe_risk := r;
           pe_source_state := state_or_unknown au;
           pe_destination_state := state_or_unknown av;
           pe_source_full := u +:+ " (" +:+ state_or_unknown au +:+ ")";
           pe_destination_full := v +:+ " (" +:+ state_or_unknown av +:+ ")" |} in
      corridor_edges G pairs' (edges ++ [e]) total_distance total_risk
  end.

(** The dictionary comprehension over [node_list]. *)
Fixpoint corridor_nodes (G : Graph) (node_list : list string)
    (nodes : odict NodeInfo) : result (odict NodeInfo) :=
  match node_list with
  | [] => Ok nodes
  | n :: node_list' =>
      a ← node_data G n;
      lat ← attr "latitude" (latitude a);
      lon ← attr "longitude" (longitude a);
      corridor_nodes G node_list'
        (oset nodes n (mkNodeInfo lat lon (state_or_unknown a)))
  end.

Section Query.

Variable get_close_matches : string -> list string -> list string.

(** The process-wide graph [G] built at start-up. *)
Variable G : Graph.

(** [source] and [destination] are the query parameters,
    [request.args.get] giving [None] for an absent one. *)
Definition get_corridor (source destination : option string)
    : result response :=
  let src_input := source in
  let dst_input := destination in
  if (falsy src_input || falsy dst_input)%bool then
    Ok (Response (ErrorBody "Missing source or destination") 400)
  else
    let src := get_real_node_name get_close_matches G (default "" src_input) in
    let dst := get_real_node_name get_close_matches G (default "" dst_input) in
    if (falsy src || falsy dst)%bool then
      Ok (Response (ErrorBody "Sanctuary not found. Check spelling.") 404)
    else
      let src := default "" src in
      let dst := default "" dst in
      mst ← kruskal_mst G;
      if (negb (Nx.has_node mst src) || negb (Nx.has_node mst dst))%bool then
        Ok (Response (ErrorBody "No path found") 404)
      else
        found ← ShortestPath.shortest_path mst src dst;
        match found with
        | ShortestPath.NetworkXNoPath =>
            Ok (Response (ErrorBody "No path found") 404)
        | ShortestPath.Path node_list =>
            '(edges, total_distance, total_risk) ←
              corridor_edges G (zip node_list (tail node_list)) [] 0 0;
            nodes ← corridor_nodes G node_list [];
            Ok (Response
                  (CorridorBody edges nodes total_distance total_risk) 200)
        end.

End Query.

(** ** Vocabulary of the statements *)

(** Position of the first occurrence of [k] in [l] ([length l] if none):
    the rank of a node in the iteration order of a graph. *)
Fixpoint pos (k : string) (l : list string) : nat :=
  match l with
  | [] => O
  | k' :: l' => if decide (k' = k) then O else S (pos k l')
  end.

(** Two nodes joined by an edge of the list, in either direction. *)
Definition linked (es : list Edge) (u v : string) : Prop :=
  exists dd, (u, v, dd) ∈ es \/ (v, u, dd) ∈ es.

(** Connectivity in the undirected graph with edge list [es]. *)
Definition connected (es : list Edge) : relation string :=
  rtc (linked es).

(** No edge closes a cycle: the ends of every edge are disconnected once
    that one occurrence of the edge is taken away. *)
Definition cycle_free (es : list Edge) : Prop :=
  forall l1 u v dd l2,
    es = l1 ++ (u, v, dd) :: l2 -> ~ connected (l1 ++ l2) u v.

(** [reps] holds exactly one node of every connected component of the
    graph with nodes [V] and edge list [es]; its length is the number of
    connected components. *)
Record transversal (V : list string) (es : list Edge) (reps : list string)
    : Prop := mkTransversal {
  tr_nodup : NoDup reps;
  tr_nodes : forall r, r ∈ reps -> r ∈ V;
  tr_covers : forall n, n ∈ V -> exists r, r ∈ reps /\ connected es n r;
  tr_apart : forall r r', r ∈ reps -> r' ∈ reps -> connected es r r' -> r = r'
}.

(** The shape networkx maintains for an undirected graph. *)
Record graph_wf (G : Graph) : Prop := mkGraphWf {
  wf_keys : okeys (g_adj G) = okeys (g_node G);
  wf_nodup : NoDup (okeys (g_node G));
  wf_inner : forall u nbrs, oget (g_adj G) u = Some nbrs -> NoDup (okeys nbrs);
  wf_sym : forall u v, Nx.get_edge G u v = Nx.get_edge G v u
}.

(** Union-find: [r] is the representative reached from [u]. *)
Inductive root (P : gmap string string) : string -> string -> Prop :=
| root_self u : P !! u = Some u -> root P u u
| root_step u p r : P !! u = Some p -> p <> u -> root P p r -> root P u r.

Definition same_set (P : gmap string string) (u v : string) : Prop :=
  exists r, root P u r /\ root P v r.

Definition rank_of (R : gmap string nat) (u : string) : nat :=
  default O (R !! u).

(** The union-find tables over the node list [V], with ranks at most [K]. *)
Record uf_inv (V : list string) (K : nat) (P : gmap string string)
    (R : gmap string nat) : Prop := mkUfInv {
  uf_parent : forall u, u ∈ V -> exists p, P !! u = Some p /\ p ∈ V;
  uf_rank : forall u, u ∈ V -> is_Some (R !! u);
  uf_bound : forall u, rank_of R u <= K;
  uf_climb : forall u p, P !! u = Some p -> p <> u -> rank_of R u < rank_of R p
}.

(** Number of representatives among [V]. *)
Definition nroots (P : gmap string string) (V : list string) : nat :=
  length (filter (fun n => P !! n = Some n) V).

(** What the loop of [kruskal_mst] maintains once it has processed the
    edges [seen]: the union-find classes are the components of the tree
    built so far, which spans the processed edges and has no cycle. *)
Record kruskal_inv (V : list string) (seen : list Edge)
    (P : gmap string string) (R : gmap string nat) (T : Graph) : Prop :=
  mkKruskalInv {
  ki_uf : uf_inv V (length seen) P R;
  ki_wf : graph_wf T;
  ki_nodes : forall n, n ∈ Nx.nodes T <-> exists c, linked (Nx.edges T) n c;
  ki_same : forall x y, x ∈ V -> y ∈ V ->
            same_set P x y <-> connected (Nx.edges T) x y;
  ki_spans : forall x y, linked seen x y -> connected (Nx.edges T) x y;
  ki_sub : forall x y, linked (Nx.edges T) x y -> linked seen x y;
  ki_attr : forall u v dd, Nx.get_edge T u v = Some dd ->
            (u, v, dd) ∈ seen \/ (v, u, dd) ∈ seen;
  ki_forest : cycle_free (Nx.edges T);
  ki_count : length (Nx.edges T) + nroots P V = length V
}.

(** The ten column labels [load_graph] reads from every row. *)
Definition text_columns : list string :=
  ["Source"; "Destination"; "Source_State"; "Destination_State"].

Definition num_columns : list string :=
  ["Distance (km)"; "Risk Level"; "Source_Latitude"; "Source_Longitude";
   "Destination_Latitude"; "Destination_Longitude"].

Definition required_columns : list string := text_columns ++ num_columns.

(** The row has a cell under every label that is read. *)
Definition row_complete (row : Row) : Prop :=
  Forall (fun c => is_Some (oget (text_cells row) c)) text_columns /\
  Forall (fun c => is_Some (oget (num_cells row) c)) num_columns.

#[global] Instance row_complete_dec row : Decision (row_complete row).
Proof. unfold row_complete. apply _. Defined.

(** The row is about the unordered pair of [u] and [v]. *)
Definition describes (row : Row) (u v : string) : Prop :=
  (row_text row "Source" = Ok u /\ row_text row "Destination" = Ok v) \/
  (row_text row "Source" = Ok v /\ row_text row "Destination" = Ok u).

(** What every graph built by [load_graph] satisfies. *)
Record loaded (G : Graph) : Prop := mkLoaded {
  ld_wf : graph_wf G;
  ld_weight : forall u v dd,
    Nx.get_edge G u v = Some dd -> Weight dd = (Distance dd + Risk dd * 50)%Z;
  ld_attrs : forall n a,
    oget (g_node G) n = Some a ->
    is_Some (latitude a) /\ is_Some (longitude a) /\ is_Some (state a)
}.

(** Latitude, longitude and state of one end of a corridor. *)
Record Geo : Type := mkGeo {
  geo_latitude : Z;
  geo_longitude : Z;
  geo_state : string
}.

(** A complete row of the dataset. *)
Definition mk_row (src dst : string) (dist risk : Z) (sgeo dgeo : Geo) : Row :=
  {| text_cells :=
       [("Source", src); ("Destination", dst);
        ("Source_State", geo_state sgeo);
        ("Destination_State", geo_state dgeo)];
     num_cells :=
       [("Distance (km)", dist); ("Risk Level", risk);
        ("Source_Latitude", geo_latitude sgeo);
        ("Source_Longitude", geo_longitude sgeo);
        ("Destination_Latitude", geo_latitude dgeo);
        ("Destination_Longitude", geo_longitude dgeo)] |}.

(** Source, destination, distance and risk of the legs of a corridor. *)
Definition legs (path : list PathEdge) : list (string * string * Z * Z) :=
  (fun e => (pe_source e, pe_destination e, pe_distance e, pe_risk e)) <$> path.

(** The order [sorted] puts edges in. *)
Definition weight_le (e1 e2 : Edge) : Prop := (Weight e1.2 <= Weight e2.2)%Z.

(** Sample data: the three corridors A-B, B-C, A-C, and a matcher that
    finds no close match. *)
Definition sample_geo (state : string) : Geo := mkGeo 22 80 state.

Definition sample_rows : list Row :=
  [mk_row "A" "B" 10 1 (sample_geo "MP") (sample_geo "MH");
   mk_row "B" "C" 10 1 (sample_geo "MH") (sample_geo "KA");
   mk_row "A" "C" 5 4 (sample_geo "MP") (sample_geo "KA")].

Definition sample_csv : string -> csv_outcome := fun _ => CsvFrame sample_rows.

Definition no_close_matches : string -> list string -> list string :=
  fun _ _ => [].




(** A dataset that describes the corridor A-B twice. *)
Definition rows_with_repeat : list Row :=
  [mk_row "A" "B" 10 1 (sample_geo "MP") (sample_geo "MH");
   mk_row "B" "C" 7 2 (sample_geo "MH") (sample_geo "KA");
   mk_row "B" "A" 30 3 (sample_geo "MH") (sample_geo "MP");
   mk_row "C" "D" 4 1 (sample_geo "KA") (sample_geo "TN")].

(** A row from a node to itself. *)
Definition self_loop_row : Row :=
  mk_row "A" "A" 10 1 (sample_geo "MP") (sample_geo "MP").

(** Two sanctuaries whose names differ only in case. *)
Definition rows_same_name : list Row :=
  [mk_row "Kanha" "Pench" 10 1 (sample_geo "MP") (sample_geo "MP");
   mk_row "KANHA" "Satpura" 20 2 (sample_geo "MP") (sample_geo "MP")].

(** The row names [n] at one of its ends. *)
Definition mentions (row : Row) (n : string) : Prop :=
  row_text row "Source" = Ok n \/ row_text row "Destination" = Ok n.

(** The edges of weight at most [w]. *)
Definition light (w : Z) (es : list Edge) : list Edge :=
  filter (fun e => (Weight e.2 <= w)%Z) es.

(** Consecutive nodes of the list are joined by an edge of the graph. *)
Definition is_walk (G : Graph) (p : list string) : Prop :=
  forall i u v, p !! i = Some u -> p !! S i = Some v ->
                is_Some (Nx.get_edge G u v).

(** A leg of the answer carries the data of the edge of [G] it follows. *)
Definition leg_follows (G : Graph) (uv : string * string) (e : PathEdge) : Prop :=
  pe_source e = uv.1 /\ pe_destination e = uv.2 /\
  exists dd, Nx.get_edge G uv.1 uv.2 = Some dd /\
             pe_distance e = Distance dd /\ pe_risk e = Risk dd.

(** Sum of a list of integers. *)
Definition sumZ (l : list Z) : Z := foldr Z.add 0%Z l.

(** What [shortest_path] keeps for every reached node: a walk of the graph
    from the source to that node. *)
Definition tentative_ok (G : Graph) (source : string)
    (tent : ShortestPath.tentative) : Prop :=
  forall v d p, (v, (d, p)) ∈ tent ->
    head p = Some source /\ last p = Some v /\ is_walk G p.




(** The graph built from the sample data. *)
Definition sample_graph : Graph :=
  match load_graph sample_csv "data.csv" with
  | Ok G => G
  | Raise _ => Nx.empty
  end.



(** * Properties *)

(** ** Ordered dictionaries *)

Section OrderedDictFacts.
Context {V : Type}.
Implicit Types (d : odict V) (k : string) (v : V).

Lemma oget_oset_eq d k v : oget (oset d k v) k = Some v.
Proof.
  induction d as [|[k' v'] d IH]; simpl; repeat case_decide;
    simpl; repeat case_decide; simplify_eq; auto.
Qed.

Lemma oget_oset_ne d k k' v : k <> k' -> oget (oset d k v) k' = oget d k'.
Proof.
  intros Hne. induction d as [|[k0 v0] d IH]; simpl; repeat case_decide;
    simpl; repeat case_decide; simplify_eq; auto.
Qed.

Lemma oget_None_keys d k : oget d k = None <-> k ∉ okeys d.
Proof.
  unfold okeys. induction d as [|[k' v'] d IH]; simpl.
  - split; [intros _; apply not_elem_of_nil | done].
  - rewrite not_elem_of_cons. case_decide; simplify_eq.
    + split; [done | tauto].
    + rewrite IH. split; [done | tauto].
Qed.

Lemma oget_Some_keys d k v : oget d k = Some v -> k ∈ okeys d.
Proof.
  intros H. destruct (decide (k ∈ okeys d)) as [|Hn]; [done|].
  apply oget_None_keys in Hn. congruence.
Qed.

Lemma oget_keys_Some d k : k ∈ okeys d -> is_Some (oget d k).
Proof.
  intros H. destruct (oget d k) eqn:E; [by eexists|].
  by apply oget_None_keys in E.
Qed.

Lemma oget_Some_elem d k v : oget d k = Some v -> (k, v) ∈ d.
Proof.
  induction d as [|[k' v'] d IH]; simpl; [done|].
  case_decide; intros; simplify_eq; [left | right; auto].
Qed.

Lemma elem_oget d k v : NoDup (okeys d) -> (k, v) ∈ d -> oget d k = Some v.
Proof.
  unfold okeys. induction d as [|[k' v'] d IH]; simpl.
  - intros _ H. by apply elem_of_nil in H.
  - rewrite NoDup_cons, elem_of_cons. intros [Hn Hnd] [Heq|Hin].
    + simplify_eq. by rewrite decide_True.
    + case_decide; simplify_eq; auto.
      exfalso. apply Hn. by apply (list_elem_of_fmap_2 fst) in Hin.
Qed.

Lemma omem_true d k : omem k d = true <-> k ∈ okeys d.
Proof. unfold omem. by rewrite bool_decide_eq_true. Qed.

Lemma omem_false d k : omem k d = false <-> k ∉ okeys d.
Proof. unfold omem. by rewrite bool_decide_eq_false. Qed.

Lemma okeys_oset_in d k v : k ∈ okeys d -> okeys (oset d k v) = okeys d.
Proof.
  unfold okeys. induction d as [|[k' v'] d IH]; simpl.
  - intros H. by apply elem_of_nil in H.
  - rewrite elem_of_cons. intros [->|Hin]; [by rewrite decide_True|].
    case_decide; simplify_eq; simpl; [done|]. f_equal; auto.
Qed.

Lemma okeys_oset_notin d k v :
  k ∉ okeys d -> okeys (oset d k v) = okeys d ++ [k].
Proof.
  unfold okeys. induction d as [|[k' v'] d IH]; simpl; [done|].
  rewrite not_elem_of_cons. intros [Hne Hn].
  rewrite decide_False by done. simpl. f_equal. by apply IH.
Qed.

Lemma okeys_oset d k v :
  okeys (oset d k v) = if omem k d then okeys d else okeys d ++ [k].
Proof.
  destruct (omem k d) eqn:E.
  - apply okeys_oset_in. by apply omem_true.
  - apply okeys_oset_notin. by apply omem_false.
Qed.

Lemma okeys_oset_elem d k v k' :
  k' ∈ okeys (oset d k v) <-> k' = k \/ k' ∈ okeys d.
Proof.
  rewrite okeys_oset. destruct (omem k d) eqn:E.
  - apply omem_true in E. split; [tauto | intros [->|]; done].
  - rewrite elem_of_app, list_elem_of_singleton. tauto.
Qed.

Lemma NoDup_okeys_oset d k v : NoDup (okeys d) -> NoDup (okeys (oset d k v)).
Proof.
  intros Hnd. rewrite okeys_oset. destruct (omem k d) eqn:E; [done|].
  apply omem_false in E. apply NoDup_app. split_and!; auto.
  - intros x Hx Hx'. apply list_elem_of_singleton in Hx'. by subst.
  - apply NoDup_singleton.
Qed.

End OrderedDictFacts.

(** ** The graph structure *)

Lemma nodes_elem_adj G u :
  graph_wf G -> u ∈ Nx.nodes G <-> is_Some (oget (g_adj G) u).
Proof.
  intros Hwf. unfold Nx.nodes. rewrite <- (wf_keys _ Hwf). split.
  - apply oget_keys_Some.
  - intros [x Hx]. by eapply oget_Some_keys.
Qed.

Lemma get_edge_nodes G u v dd :
  graph_wf G -> Nx.get_edge G u v = Some dd ->
  u ∈ Nx.nodes G /\ v ∈ Nx.nodes G.
Proof.
  intros Hwf H.
  assert (forall a b, Nx.get_edge G a b = Some dd -> a ∈ Nx.nodes G) as Hl.
  { intros a b Hab. apply nodes_elem_adj; [done|]. unfold Nx.get_edge in Hab.
    destruct (oget (g_adj G) a); [by eexists | done]. }
  split; [by eapply Hl|]. rewrite (wf_sym _ Hwf) in H. by eapply Hl.
Qed.

Lemma has_node_true G u : Nx.has_node G u = true <-> u ∈ Nx.nodes G.
Proof. apply omem_true. Qed.

Lemma has_node_false G u : Nx.has_node G u = false <-> u ∉ Nx.nodes G.
Proof. apply omem_false. Qed.

Lemma graph_wf_empty : graph_wf Nx.empty.
Proof. split; simpl; try done. apply NoDup_nil_2. Qed.

Lemma get_edge_absent G u b :
  oget (g_adj G) u = None -> Nx.get_edge G u b = None.
Proof. unfold Nx.get_edge. by intros ->. Qed.

Lemma touch_nodes G u :
  Nx.nodes (Nx.touch G u) =
  if Nx.has_node G u then Nx.nodes G else Nx.nodes G ++ [u].
Proof.
  unfold Nx.touch. destruct (Nx.has_node G u) eqn:E; [done|].
  unfold Nx.nodes; simpl. apply okeys_oset_notin. by apply has_node_false.
Qed.

Lemma touch_elem G u x :
  x ∈ Nx.nodes (Nx.touch G u) <-> x = u \/ x ∈ Nx.nodes G.
Proof.
  rewrite touch_nodes. destruct (Nx.has_node G u) eqn:E.
  - apply has_node_true in E. split; [tauto | intros [->|]; done].
  - rewrite elem_of_app, list_elem_of_singleton. tauto.
Qed.

Lemma touch_get_edge G u a b :
  graph_wf G -> Nx.get_edge (Nx.touch G u) a b = Nx.get_edge G a b.
Proof.
  intros Hwf. unfold Nx.touch. destruct (Nx.has_node G u) eqn:E; [done|].
  apply has_node_false in E. unfold Nx.nodes in E.
  rewrite <- (wf_keys _ Hwf) in E. apply oget_None_keys in E.
  unfold Nx.get_edge; simpl. destruct (decide (u = a)) as [->|Hne].
  - by rewrite oget_oset_eq, E.
  - by rewrite oget_oset_ne.
Qed.

Lemma touch_wf G u : graph_wf G -> graph_wf (Nx.touch G u).
Proof.
  intros Hwf. pose proof (touch_get_edge G u) as Hget.
  unfold Nx.touch in *. destruct (Nx.has_node G u) eqn:E; [done|].
  apply has_node_false in E. unfold Nx.nodes in E.
  split; simpl.
  - rewrite !okeys_oset_notin; [by rewrite (wf_keys _ Hwf) | done |].
    by rewrite (wf_keys _ Hwf).
  - apply NoDup_okeys_oset, Hwf.
  - intros a nbrs. destruct (decide (u = a)) as [->|Hne].
    + rewrite oget_oset_eq. intros; simplify_eq. apply NoDup_nil_2.
    + rewrite oget_oset_ne by done. apply Hwf.
  - intros a b. rewrite !Hget by done. apply Hwf.
Qed.

Lemma set_adj_get_edge G u v dd a b :
  Nx.get_edge (Nx.set_adj G u v dd) a b =
  if decide (a = u /\ b = v) then Some dd else Nx.get_edge G a b.
Proof.
  unfold Nx.get_edge, Nx.set_adj; simpl.
  destruct (decide (u = a)) as [->|Hne].
  - rewrite oget_oset_eq; simpl. destruct (decide (v = b)) as [->|Hne'].
    + rewrite oget_oset_eq. by rewrite decide_True.
    + rewrite oget_oset_ne by done. rewrite decide_False by naive_solver.
      by destruct (oget (g_adj G) a).
  - rewrite oget_oset_ne by done. by rewrite decide_False by naive_solver.
Qed.

Lemma set_adj_nodes G u v dd : Nx.nodes (Nx.set_adj G u v dd) = Nx.nodes G.
Proof. done. Qed.

Lemma add_edge_get_edge G u v dd a b :
  graph_wf G ->
  Nx.get_edge (Nx.add_edge G u v dd) a b =
  if decide ((a = u /\ b = v) \/ (a = v /\ b = u)) then Some dd
  else Nx.get_edge G a b.
Proof.
  intros Hwf. unfold Nx.add_edge. rewrite !set_adj_get_edge.
  rewrite !touch_get_edge by auto using touch_wf.
  repeat case_decide; try done; naive_solver.
Qed.

Lemma add_edge_nodes_elem G u v dd x :
  x ∈ Nx.nodes (Nx.add_edge G u v dd) <-> x = u \/ x = v \/ x ∈ Nx.nodes G.
Proof.
  unfold Nx.add_edge. rewrite !set_adj_nodes, !touch_elem. tauto.
Qed.

Lemma add_edge_nodes_ext G u v dd :
  exists ext, Nx.nodes (Nx.add_edge G u v dd) = Nx.nodes G ++ ext.
Proof.
  unfold Nx.add_edge. rewrite !set_adj_nodes, !touch_nodes.
  destruct (Nx.has_node (Nx.touch G u) v), (Nx.has_node G u).
  - exists []. by rewrite app_nil_r.
  - by exists [u].
  - by exists [v].
  - exists [u; v]. by rewrite <- app_assoc.
Qed.

Lemma set_adj_keys G u v dd :
  u ∈ okeys (g_adj G) -> okeys (g_adj (Nx.set_adj G u v dd)) = okeys (g_adj G).
Proof. intros Hu. unfold Nx.set_adj; simpl. by apply okeys_oset_in. Qed.

Lemma set_adj_inner G u v dd :
  (forall a nbrs, oget (g_adj G) a = Some nbrs -> NoDup (okeys nbrs)) ->
  forall a nbrs, oget (g_adj (Nx.set_adj G u v dd)) a = Some nbrs ->
                 NoDup (okeys nbrs).
Proof.
  intros HG a nbrs. unfold Nx.set_adj; simpl.
  destruct (decide (u = a)) as [->|Hne].
  - rewrite oget_oset_eq. intros; simplify_eq. apply NoDup_okeys_oset.
    destruct (oget (g_adj G) a) eqn:E; simpl; [by eapply HG | apply NoDup_nil_2].
  - rewrite oget_oset_ne by done. apply HG.
Qed.

Lemma add_edge_wf G u v dd : graph_wf G -> graph_wf (Nx.add_edge G u v dd).
Proof.
  intros Hwf. pose proof (add_edge_get_edge G u v dd) as Hget.
  unfold Nx.add_edge in *.
  set (G2 := Nx.touch (Nx.touch G u) v) in *.
  assert (graph_wf G2) as Hwf2 by (by apply touch_wf, touch_wf).
  assert (u ∈ okeys (g_adj G2) /\ v ∈ okeys (g_adj G2)) as [Hu Hv].
  { rewrite (wf_keys _ Hwf2). unfold G2.
    pose proof (touch_elem (Nx.touch G u) v) as H1.
    pose proof (touch_elem G u) as H2. unfold Nx.nodes in *.
    rewrite !H1, !H2. tauto. }
  split.
  - rewrite !set_adj_keys; [apply Hwf2 | done |].
    by rewrite set_adj_keys.
  - apply Hwf2.
  - apply set_adj_inner, set_adj_inner, Hwf2.
  - intros a b. rewrite !Hget by done.
    repeat case_decide; try done; try naive_solver. apply Hwf.
Qed.

Lemma set_node_attr_ok G n f :
  n ∈ Nx.nodes G -> exists G', Nx.set_node_attr G n f = Ok G'.
Proof.
  intros Hn. unfold Nx.set_node_attr.
  destruct (oget_keys_Some _ _ Hn) as [a ->]. by eexists.
Qed.

Lemma set_node_attr_spec G n f G' :
  Nx.set_node_attr G n f = Ok G' ->
  g_adj G' = g_adj G /\ Nx.nodes G' = Nx.nodes G /\
  exists a, oget (g_node G) n = Some a /\ g_node G' = oset (g_node G) n (f a).
Proof.
  unfold Nx.set_node_attr. destruct (oget (g_node G) n) as [a|] eqn:E; [|done].
  intros; simplify_eq; simpl. split_and!; [done | | by eexists].
  unfold Nx.nodes; simpl. apply okeys_oset_in. by eapply oget_Some_keys.
Qed.

Lemma set_node_attr_wf G n f G' :
  Nx.set_node_attr G n f = Ok G' -> graph_wf G -> graph_wf G'.
Proof.
  intros H Hwf. destruct (set_node_attr_spec _ _ _ _ H) as (Hadj & Hn & _).
  unfold Nx.nodes in Hn. split.
  - rewrite Hadj, Hn. apply Hwf.
  - rewrite Hn. apply Hwf.
  - rewrite Hadj. apply Hwf.
  - unfold Nx.get_edge. rewrite Hadj. apply Hwf.
Qed.

Lemma set_node_attr_get_edge G n f G' a b :
  Nx.set_node_attr G n f = Ok G' -> Nx.get_edge G' a b = Nx.get_edge G a b.
Proof.
  intros H. destruct (set_node_attr_spec _ _ _ _ H) as (Hadj & _).
  unfold Nx.get_edge. by rewrite Hadj.
Qed.

(** ** Iteration order and the edge view *)

Lemma pos_app_at l1 a l2 : a ∉ l1 -> pos a (l1 ++ a :: l2) = length l1.
Proof.
  induction l1 as [|x l1 IH]; simpl.
  - intros _. by rewrite decide_True.
  - rewrite not_elem_of_cons. intros [Hne Hn].
    rewrite decide_False by done. f_equal. by apply IH.
Qed.

Lemma pos_app_ge l1 b l : b ∉ l1 -> length l1 <= pos b (l1 ++ l).
Proof.
  induction l1 as [|x l1 IH]; simpl; [lia|].
  rewrite not_elem_of_cons. intros [Hne Hn].
  rewrite decide_False by done. specialize (IH Hn). lia.
Qed.

Lemma pos_elem_lt b l : b ∈ l <-> pos b l < length l.
Proof.
  induction l as [|x l IH]; simpl.
  - split; [intros H; by apply elem_of_nil in H | lia].
  - rewrite elem_of_cons. case_decide; simplify_eq.
    + split; [lia | auto].
    + rewrite IH. split; [intros [?|?]; [done | lia] | intros; right; lia].
Qed.

Lemma pos_elem_app x l ext : x ∈ l -> pos x (l ++ ext) = pos x l.
Proof.
  induction l as [|y l IH]; simpl.
  - intros H. by apply elem_of_nil in H.
  - rewrite elem_of_cons. case_decide; [done|].
    intros [?|?]; [done|]. f_equal. by apply IH.
Qed.

Lemma pos_app_lt l1 b l : b ∈ l1 -> pos b (l1 ++ l) < length l1.
Proof. intros Hb. rewrite pos_elem_app by done. by apply pos_elem_lt. Qed.

Lemma pos_inj x y l : x ∈ l -> pos x l = pos y l -> x = y.
Proof.
  induction l as [|z l IH]; simpl.
  - intros H. by apply elem_of_nil in H.
  - rewrite elem_of_cons. repeat case_decide; simplify_eq; try done.
    intros [?|?] ?; [done|]. apply IH; [done | lia].
Qed.

Lemma elem_edges_from seen adj a b dd :
  (a, b, dd) ∈ Nx.edges_from seen adj <->
  exists l1 nbrs l2,
    adj = l1 ++ (a, nbrs) :: l2 /\ (b, dd) ∈ nbrs /\ (b ∉ seen) /\ (b ∉ l1.*1).
Proof.
  revert seen. induction adj as [|[n nbrs] rest IH]; intros seen; simpl.
  - split; [intros H; by apply elem_of_nil in H|].
    intros (l1 & ? & ? & H & _). by destruct l1.
  - rewrite elem_of_app, list_elem_of_fmap, IH. split.
    + intros [([b' d'] & Heq & Hin)|(l1 & nb & l2 & -> & Hin & Hs & Hl)].
      * simpl in Heq. simplify_eq. apply list_elem_of_filter in Hin as [Hs Hin].
        exists [], nbrs, rest. simpl in *. split_and!; try done.
        apply not_elem_of_nil.
      * rewrite not_elem_of_cons in Hs. destruct Hs as [Hne Hs].
        exists ((n, nbrs) :: l1), nb, l2. split_and!; try done.
        simpl. by rewrite not_elem_of_cons.
    + intros (l1 & nb & l2 & Heq & Hin & Hs & Hl).
      destruct l1 as [|[n' nb'] l1]; simpl in *; simplify_eq.
      * left. exists (b, dd). split; [done|].
        apply list_elem_of_filter. by split.
      * right. rewrite not_elem_of_cons in Hl. destruct Hl as [Hne Hl].
        exists l1, nb, l2. split_and!; try done.
        by rewrite not_elem_of_cons.
Qed.

Lemma elem_edges G a b dd :
  graph_wf G ->
  (a, b, dd) ∈ Nx.edges G <->
  Nx.get_edge G a b = Some dd /\ pos a (Nx.nodes G) <= pos b (Nx.nodes G).
Proof.
  intros Hwf. unfold Nx.edges. rewrite elem_edges_from.
  pose proof (wf_nodup _ Hwf) as Hnd. rewrite <- (wf_keys _ Hwf) in Hnd.
  unfold Nx.nodes. rewrite <- (wf_keys _ Hwf). split.
  - intros (l1 & nbrs & l2 & Heq & Hin & _ & Hl).
    assert (oget (g_adj G) a = Some nbrs) as Hget.
    { apply elem_oget; [done|]. rewrite Heq, elem_of_app, elem_of_cons. auto. }
    assert (a ∉ l1.*1) as Ha.
    { rewrite Heq in Hnd. unfold okeys in Hnd. rewrite fmap_app in Hnd.
      apply NoDup_app in Hnd as (_ & Hd & _). intros Hin'.
      apply (Hd _ Hin'). simpl. left. }
    split.
    + unfold Nx.get_edge. rewrite Hget; simpl. apply elem_oget; [|done].
      by eapply wf_inner.
    + rewrite Heq. unfold okeys. rewrite fmap_app; simpl.
      rewrite pos_app_at by done. rewrite length_fmap, <- (length_fmap fst l1).
      by apply pos_app_ge.
  - intros [Hget Hpos]. unfold Nx.get_edge in Hget.
    destruct (oget (g_adj G) a) as [nbrs|] eqn:E; [|done]. simpl in Hget.
    apply oget_Some_elem in E as Hin. apply list_elem_of_split in Hin.
    destruct Hin as (l1 & l2 & Heq). exists l1, nbrs, l2.
    assert (a ∉ l1.*1) as Ha.
    { rewrite Heq in Hnd. unfold okeys in Hnd. rewrite fmap_app in Hnd.
      apply NoDup_app in Hnd as (_ & Hd & _). intros Hin'.
      apply (Hd _ Hin'). simpl. left. }
    split_and!; [done | by apply oget_Some_elem | apply not_elem_of_nil |].
    intros Hb. rewrite Heq in Hpos. unfold okeys in Hpos.
    rewrite fmap_app, fmap_cons in Hpos.
    change (pos a (l1.*1 ++ a :: l2.*1) <= pos b (l1.*1 ++ a :: l2.*1)) in Hpos.
    rewrite pos_app_at in Hpos by done.
    pose proof (pos_app_lt _ _ (a :: l2.*1) Hb) as Hlt.
    lia.
Qed.

Lemma NoDup_edges_from seen adj :
  NoDup (okeys adj) ->
  (forall a nbrs, (a, nbrs) ∈ adj -> NoDup (okeys nbrs)) ->
  NoDup (Nx.edges_from seen adj).
Proof.
  revert seen. induction adj as [|[n nbrs] rest IH]; intros seen; simpl.
  - intros _ _. apply NoDup_nil_2.
  - unfold okeys; simpl. rewrite NoDup_cons. intros [Hn Hnd] Hin.
    apply NoDup_app. split_and!.
    + apply NoDup_fmap_2_strong.
      * intros [x1 d1] [x2 d2] H1 H2 Heq. simpl in *. by simplify_eq.
      * apply NoDup_filter. eapply NoDup_fmap_1.
        apply (Hin n nbrs). left.
    + intros [[a b] dd] H1 H2. apply list_elem_of_fmap in H1 as (? & Heq & _).
      simplify_eq. apply elem_edges_from in H2 as (l1 & nb & l2 & -> & _).
      apply Hn. rewrite fmap_app, elem_of_app. right. simpl. left.
    + apply IH; [done|]. intros a nb Ha. apply (Hin a nb). by right.
Qed.

Lemma NoDup_edges G : graph_wf G -> NoDup (Nx.edges G).
Proof.
  intros Hwf. apply NoDup_edges_from.
  - rewrite (wf_keys _ Hwf). apply Hwf.
  - intros a nbrs Hin. apply (wf_inner _ Hwf a). apply elem_oget; [|done].
    rewrite (wf_keys _ Hwf). apply Hwf.
Qed.

(** Every adjacency is listed once, in one of its two directions. *)
Lemma get_edge_listed G a b dd :
  graph_wf G -> Nx.get_edge G a b = Some dd ->
  (a, b, dd) ∈ Nx.edges G \/ (b, a, dd) ∈ Nx.edges G.
Proof.
  intros Hwf H. rewrite !elem_edges by done.
  destruct (decide (pos a (Nx.nodes G) <= pos b (Nx.nodes G))).
  - by left.
  - right. rewrite (wf_sym _ Hwf). split; [done | lia].
Qed.

Lemma linked_edges G a b :
  graph_wf G -> linked (Nx.edges G) a b <-> is_Some (Nx.get_edge G a b).
Proof.
  intros Hwf. split.
  - intros (dd & [H|H]); apply elem_edges in H as [H _]; try done;
      first [rewrite H | rewrite (wf_sym _ Hwf), H | idtac]; eauto.
  - intros [dd H]. exists dd. by apply get_edge_listed.
Qed.

(** ** Connectivity *)

Lemma linked_sym es a b : linked es a b -> linked es b a.
Proof. intros (dd & H). exists dd. tauto. Qed.

Lemma linked_cons es u v dd a b :
  linked ((u, v, dd) :: es) a b <->
  (a = u /\ b = v) \/ (a = v /\ b = u) \/ linked es a b.
Proof.
  unfold linked. setoid_rewrite elem_of_cons. split.
  - intros (d' & [[?|?]|[?|?]]); simplify_eq; eauto 6.
  - intros [[-> ->]|[[-> ->]|(d' & [?|?])]]; eauto 6.
Qed.

Lemma connected_refl es a : connected es a a.
Proof. apply rtc_refl. Qed.

Lemma connected_trans es a b c :
  connected es a b -> connected es b c -> connected es a c.
Proof. apply rtc_trans. Qed.

Lemma connected_link es a b : linked es a b -> connected es a b.
Proof. apply rtc_once. Qed.

Lemma connected_sym es a b : connected es a b -> connected es b a.
Proof.
  induction 1 as [|a c b Hl _ IH]; [apply connected_refl|].
  eapply connected_trans; [exact IH|]. by apply connected_link, linked_sym.
Qed.

Lemma connected_mono es es' a b :
  (forall x y, linked es x y -> linked es' x y) ->
  connected es a b -> connected es' a b.
Proof.
  intros Hsub. induction 1 as [|a c b Hl _ IH]; [apply connected_refl|].
  eapply rtc_l; [by apply Hsub | done].
Qed.

Lemma connected_same_edges es es' a b :
  (forall e, e ∈ es <-> e ∈ es') -> connected es a b <-> connected es' a b.
Proof.
  intros Heq. split; apply connected_mono; intros x y (dd & H); exists dd;
    [rewrite <- !Heq | rewrite !Heq]; done.
Qed.

(** A new edge joins the components of its two ends and nothing else. *)
Lemma connected_cons_inv es u v dd a b :
  connected ((u, v, dd) :: es) a b ->
  connected es a b \/
  (connected es a u /\ connected es v b) \/
  (connected es a v /\ connected es u b).
Proof.
  induction 1 as [a|a c b Hl _ IH]; [left; apply connected_refl|].
  apply linked_cons in Hl as [[-> ->]|[[-> ->]|Hl]].
  - destruct IH as [IH|[[_ IH]|[_ IH]]].
    + right; left. split; [apply connected_refl | done].
    + right; left. split; [apply connected_refl | done].
    + by left.
  - destruct IH as [IH|[[_ IH]|[_ IH]]].
    + right; right. split; [apply connected_refl | done].
    + by left.
    + right; right. split; [apply connected_refl | done].
  - apply connected_link in Hl.
    destruct IH as [IH|[[IH1 IH2]|[IH1 IH2]]].
    + left. by eapply connected_trans.
    + right; left. split; [by eapply connected_trans | done].
    + right; right. split; [by eapply connected_trans | done].
Qed.

Lemma connected_cons_weaken es e a b :
  connected es a b -> connected (e :: es) a b.
Proof.
  apply connected_mono. intros x y (dd & H). exists dd.
  rewrite !elem_of_cons. tauto.
Qed.

Lemma connected_cons_head es u v dd : connected ((u, v, dd) :: es) u v.
Proof. apply connected_link. exists dd. left. left. Qed.

Lemma connected_cons es u v dd a b :
  connected ((u, v, dd) :: es) a b <->
  connected es a b \/
  (connected es a u /\ connected es v b) \/
  (connected es a v /\ connected es u b).
Proof.
  split; [apply connected_cons_inv|].
  pose proof (connected_cons_head es u v dd) as Huv.
  intros [H|[[H1 H2]|[H1 H2]]].
  - by apply connected_cons_weaken.
  - eapply connected_trans; [by apply connected_cons_weaken|].
    eapply connected_trans; [exact Huv | by apply connected_cons_weaken].
  - eapply connected_trans; [by apply connected_cons_weaken|].
    eapply connected_trans; [apply connected_sym, Huv|].
    by apply connected_cons_weaken.
Qed.

(** Two distinct connected nodes are both ends of some edge. *)
Lemma connected_endpoint es a b :
  connected es a b -> a <> b -> exists c, linked es a c.
Proof. destruct 1 as [|a c b Hl _]; [done | eauto]. Qed.

(** ** Forests *)

Lemma cycle_free_nil : cycle_free [].
Proof. intros l1 u v dd l2 H. by destruct l1. Qed.

Lemma cycle_free_cons es u v dd :
  cycle_free es -> ~ connected es u v -> cycle_free ((u, v, dd) :: es).
Proof.
  intros Hcf Hnc l1 a b d' l2 Heq.
  destruct l1 as [|e l1]; simpl in Heq; simplify_eq; [done|].
  intros Hc. apply connected_cons_inv in Hc.
  pose proof (Hcf l1 a b d' l2 eq_refl) as Hab.
  assert (forall x y, connected (l1 ++ l2) x y ->
                      connected (l1 ++ (a, b, d') :: l2) x y) as Hw.
  { intros x y. apply connected_mono. intros x' y' (d0 & H). exists d0.
    rewrite !elem_of_app, !elem_of_cons in *. tauto. }
  assert (connected (l1 ++ (a, b, d') :: l2) a b) as Hedge.
  { apply connected_link. exists d'. left.
    rewrite elem_of_app, elem_of_cons. auto. }
  destruct Hc as [Hc|[[H1 H2]|[H1 H2]]]; [done | |]; apply Hnc.
  - eapply connected_trans; [apply connected_sym, Hw, H1|].
    eapply connected_trans; [exact Hedge|]. apply connected_sym, Hw, H2.
  - eapply connected_trans; [apply Hw, H2|].
    apply connected_sym.
    eapply connected_trans; [apply connected_sym, Hw, H1 | exact Hedge].
Qed.

Lemma cycle_free_perm es es' : es ≡ₚ es' -> cycle_free es -> cycle_free es'.
Proof.
  intros Hp Hcf l1' u v dd l2' Heq Hc. subst es'.
  assert ((u, v, dd) ∈ es) as Hin.
  { rewrite Hp, elem_of_app, elem_of_cons. auto. }
  apply list_elem_of_split in Hin as (l1 & l2 & ->).
  apply Permutation_app_inv in Hp.
  apply (Hcf l1 u v dd l2 eq_refl).
  eapply connected_same_edges; [|exact Hc].
  intros e. by rewrite Hp.
Qed.

(** ** Counting classes *)

(** A relation that is injective from [l1] into [l2] bounds the length. *)
Lemma rel_inj_length {A} (Rel : A -> A -> Prop) (l1 l2 : list A) :
  NoDup l1 ->
  (forall x, x ∈ l1 -> exists y, y ∈ l2 /\ Rel x y) ->
  (forall x x' y, x ∈ l1 -> x' ∈ l1 -> Rel x y -> Rel x' y -> x = x') ->
  length l1 <= length l2.
Proof.
  revert l2. induction l1 as [|x l1 IH]; intros l2 Hnd Hex Hinj; simpl; [lia|].
  apply NoDup_cons in Hnd as [Hx Hnd].
  destruct (Hex x) as (y & Hy & Hxy); [left|].
  apply list_elem_of_split in Hy as (a & b & ->).
  rewrite length_app; simpl.
  assert (length l1 <= length (a ++ b)) as Hle.
  { apply IH; [done | |].
    - intros x' Hx'. destruct (Hex x') as (y' & Hy' & Hxy'); [by right|].
      exists y'. split; [|done].
      rewrite elem_of_app, elem_of_cons in Hy'. rewrite elem_of_app.
      destruct Hy' as [?|[->|?]]; auto.
      exfalso. apply Hx. rewrite (Hinj x x' y); [done | left | by right | done..].
    - intros x1 x2 y' H1 H2. apply Hinj; by right. }
  rewrite length_app in Hle. lia.
Qed.

(** ** Union-find *)

Lemma root_is_root P u r : root P u r -> P !! r = Some r.
Proof. induction 1; done. Qed.

Lemma root_det P u r r' : root P u r -> root P u r' -> r = r'.
Proof.
  induction 1 as [u Hu|u p r Hu Hne _ IH]; inversion 1; simplify_eq; auto.
Qed.

Lemma root_of_root P r s : P !! r = Some r -> root P r s -> s = r.
Proof. intros Hr Hs. eapply root_det; [exact Hs | by apply root_self]. Qed.

Lemma is_root_iff P x : P !! x = Some x <-> root P x x.
Proof.
  split; [apply root_self | apply root_is_root].
Qed.

Lemma root_rank V K P R u r :
  uf_inv V K P R -> root P u r ->
  rank_of R u <= rank_of R r /\ (u <> r -> rank_of R u < rank_of R r).
Proof.
  intros Hinv. induction 1 as [u Hu|u p r Hu Hne _ [IH _]]; [split; [lia|done]|].
  pose proof (uf_climb _ _ _ _ Hinv u p Hu Hne). lia.
Qed.

Lemma root_elem V K P R u r : uf_inv V K P R -> u ∈ V -> root P u r -> r ∈ V.
Proof.
  intros Hinv Hu. induction 1 as [u Hr|u p r Hp Hne _ IH]; [done|].
  apply IH. destruct (uf_parent _ _ _ _ Hinv u Hu) as (p' & Hp' & Hin).
  by simplify_eq.
Qed.

(** Path compression moves no node to another class. *)
Lemma compress_root P u r x s :
  root P u r -> root (<[u := r]> P) x s <-> root P x s.
Proof.
  intros Hur. pose proof (root_is_root _ _ _ Hur) as Hr. split.
  - induction 1 as [x Hx|x p s Hx Hne Hps IH].
    + destruct (decide (u = x)) as [->|Hux].
      * rewrite lookup_insert_eq in Hx. simplify_eq. done.
      * rewrite lookup_insert_ne in Hx by done. by apply root_self.
    + destruct (decide (u = x)) as [->|Hux].
      * rewrite lookup_insert_eq in Hx. simplify_eq.
        by rewrite (root_of_root _ _ _ Hr IH).
      * rewrite lookup_insert_ne in Hx by done. by eapply root_step.
  - induction 1 as [x Hx|x p s Hx Hne Hps IH].
    + destruct (decide (u = x)) as [->|Hux].
      * rewrite (root_of_root _ _ _ Hx Hur). apply root_self.
        by rewrite lookup_insert_eq.
      * apply root_self. by rewrite lookup_insert_ne.
    + destruct (decide (u = x)) as [->|Hux].
      * assert (r = s) as ->.
        { eapply root_det; [exact Hur | by eapply root_step]. }
        assert (x <> s) as Hxs by (intros ->; by simplify_eq).
        eapply root_step; [by rewrite lookup_insert_eq | done |].
        apply root_self. by rewrite lookup_insert_ne.
      * eapply root_step; [by rewrite lookup_insert_ne | done | done].
Qed.

Lemma getitem_Some {A} (d : gmap string A) k v :
  d !! k = Some v -> getitem d k = Ok v.
Proof. unfold getitem. by intros ->. Qed.

Lemma find_S fuel P u :
  find (S fuel) P u =
  pu ← getitem P u;
  if decide (pu = u) then Ok (P, pu)
  else
    '(P', r) ← find fuel P pu;
    r' ← getitem (<[u := r]> P') u;
    Ok (<[u := r]> P', r').
Proof. done. Qed.

(** [find] returns the representative, given fuel beyond the ranks. *)
Lemma find_ok V K R fuel : forall P u,
  uf_inv V K P R -> u ∈ V -> K < fuel + rank_of R u ->
  exists P' r,
    find fuel P u = Ok (P', r) /\ root P u r /\ uf_inv V K P' R /\
    (forall x s, root P' x s <-> root P x s).
Proof.
  induction fuel as [|fuel IH]; intros P u Hinv Hu Hfuel.
  { pose proof (uf_bound _ _ _ _ Hinv u). lia. }
  destruct (uf_parent _ _ _ _ Hinv u Hu) as (p & Hp & Hpin).
  rewrite find_S, (getitem_Some _ _ _ Hp); simpl.
  destruct (decide (p = u)) as [->|Hne].
  { exists P, u. split_and!; [done | by apply root_self | done | done]. }
  pose proof (uf_climb _ _ _ _ Hinv u p Hp Hne) as Hclimb.
  destruct (IH P p Hinv Hpin) as (P1 & r & Hfind & Hroot & Hinv1 & Heqv); [lia|].
  rewrite Hfind; simpl.
  rewrite (getitem_Some _ u r) by apply lookup_insert_eq; simpl.
  assert (root P u r) as Hur by (by eapply root_step).
  assert (root P1 u r) as Hur1 by (by apply Heqv).
  exists (<[u := r]> P1), r. split_and!; [done | done | |].
  - split.
    + intros x Hx. destruct (decide (u = x)) as [->|Hux].
      * rewrite lookup_insert_eq. exists r. split; [done|].
        by eapply root_elem.
      * rewrite lookup_insert_ne by done. by apply (uf_parent _ _ _ _ Hinv1).
    + apply Hinv1.
    + apply Hinv1.
    + intros x q Hx Hq. destruct (decide (u = x)) as [->|Hux].
      * rewrite lookup_insert_eq in Hx. simplify_eq.
        by apply (root_rank _ _ _ _ _ _ Hinv1 Hur1).
      * rewrite lookup_insert_ne in Hx by done.
        by apply (uf_climb _ _ _ _ Hinv1).
  - intros x s. rewrite compress_root by done. apply Heqv.
Qed.

(** Every node has a representative. *)
Lemma root_exists V K P R u :
  uf_inv V K P R -> u ∈ V -> exists r, root P u r /\ r ∈ V.
Proof.
  intros Hinv Hu.
  destruct (find_ok V K R (S K) P u Hinv Hu) as (P' & r & _ & Hr & _); [lia|].
  exists r. split; [done | by eapply root_elem].
Qed.

Lemma same_set_root P u r x : root P u r -> same_set P x u <-> root P x r.
Proof.
  intros Hur. split.
  - intros (s & Hx & Hu). by rewrite (root_det _ _ _ _ Hur Hu).
  - intros Hx. by exists r.
Qed.

Lemma same_set_sym P x y : same_set P x y -> same_set P y x.
Proof. intros (r & ? & ?). by exists r. Qed.

Lemma same_set_equiv P P' :
  (forall x s, root P' x s <-> root P x s) ->
  forall x y, same_set P' x y <-> same_set P x y.
Proof.
  intros Heqv x y. unfold same_set. by setoid_rewrite Heqv.
Qed.

(** Linking one representative below another. *)
Lemma link_root P a b x s :
  P !! a = Some a -> P !! b = Some b -> a <> b ->
  root (<[a := b]> P) x s <->
  (root P x s /\ s <> a) \/ (root P x a /\ s = b).
Proof.
  intros Ha Hb Hab. split.
  - induction 1 as [x Hx|x p s Hx Hne Hps IH].
    + destruct (decide (a = x)) as [->|Hax].
      * rewrite lookup_insert_eq in Hx. by simplify_eq.
      * rewrite lookup_insert_ne in Hx by done. left.
        split; [by apply root_self | done].
    + destruct (decide (a = x)) as [->|Hax].
      * rewrite lookup_insert_eq in Hx. simplify_eq. right.
        split; [by apply root_self|].
        destruct IH as [[IH _]|[IH _]].
        -- by apply (root_of_root _ _ _ Hb).
        -- by pose proof (root_of_root _ _ _ Hb IH).
      * rewrite lookup_insert_ne in Hx by done.
        destruct IH as [[IH ?]|[IH ?]]; [left | right];
          (split; [by eapply root_step | done]).
  - intros [[H Hs]|[H ->]].
    + induction H as [x Hx|x p s Hx Hne Hps IH].
      * apply root_self. by rewrite lookup_insert_ne.
      * assert (a <> x) by (intros ->; by simplify_eq).
        eapply root_step; [by rewrite lookup_insert_ne | done | by apply IH].
    + remember a as a' eqn:Ea in H. induction H as [x Hx|x p s Hx Hne Hps IH].
      * subst. eapply root_step; [by rewrite lookup_insert_eq | done |].
        apply root_self. by rewrite lookup_insert_ne.
      * subst. assert (a <> x) by (intros ->; by simplify_eq).
        eapply root_step; [by rewrite lookup_insert_ne | done | by apply IH].
Qed.

Lemma link_same_set V K P R a b x y :
  uf_inv V K P R -> P !! a = Some a -> P !! b = Some b -> a <> b ->
  x ∈ V -> y ∈ V ->
  same_set (<[a := b]> P) x y <->
  same_set P x y \/ (root P x a /\ root P y b) \/ (root P x b /\ root P y a).
Proof.
  intros Hinv Ha Hb Hab Hx Hy.
  destruct (root_exists _ _ _ _ _ Hinv Hx) as (rx & Hrx & _).
  destruct (root_exists _ _ _ _ _ Hinv Hy) as (ry & Hry & _).
  unfold same_set. setoid_rewrite link_root; try done. split.
  - intros (s & [[H1 ?]|[H1 ->]] & [[H2 ?]|[H2 ?]]); simplify_eq.
    + left. by exists s.
    + right; right. done.
    + right; left. done.
    + left. by exists a.
  - intros [(s & H1 & H2)|[[H1 H2]|[H1 H2]]].
    + destruct (decide (s = a)) as [->|Hs].
      * exists b. split; by right.
      * exists s. split; by left.
    + exists b. split; [by right | by left].
    + exists b. split; [by left | by right].
Qed.

Lemma nroots_cons P x l :
  nroots P (x :: l) =
  if decide (P !! x = Some x) then S (nroots P l) else nroots P l.
Proof. unfold nroots. rewrite filter_cons. by case_decide. Qed.

Lemma nroots_equiv P P' l :
  (forall x s, root P' x s <-> root P x s) -> nroots P' l = nroots P l.
Proof.
  intros Heqv. induction l as [|x l IH]; [done|].
  rewrite !nroots_cons, IH.
  assert (P' !! x = Some x <-> P !! x = Some x) as Hx
    by (by rewrite !is_root_iff).
  repeat case_decide; tauto.
Qed.

Lemma nroots_insert_notin P a b l :
  a ∉ l -> nroots (<[a := b]> P) l = nroots P l.
Proof.
  induction l as [|x l IH]; [done|].
  rewrite not_elem_of_cons. intros [Hne Hn].
  rewrite !nroots_cons, IH by done. by rewrite lookup_insert_ne.
Qed.

Lemma nroots_link P a b l :
  NoDup l -> a ∈ l -> P !! a = Some a -> a <> b ->
  S (nroots (<[a := b]> P) l) = nroots P l.
Proof.
  intros Hnd Hin Ha Hab. induction l as [|x l IH].
  { by apply elem_of_nil in Hin. }
  apply NoDup_cons in Hnd as [Hx Hnd]. rewrite !nroots_cons.
  destruct (decide (a = x)) as [->|Hax].
  - rewrite lookup_insert_eq, nroots_insert_notin by done.
    rewrite decide_False by congruence. by rewrite decide_True.
  - rewrite lookup_insert_ne by done. apply elem_of_cons in Hin as [?|Hin]; [done|].
    specialize (IH Hnd Hin). case_decide; lia.
Qed.

Lemma uf_inv_weaken V K K' P R : K <= K' -> uf_inv V K P R -> uf_inv V K' P R.
Proof.
  intros Hle [H1 H2 H3 H4]. split; try done.
  intros u. specialize (H3 u). lia.
Qed.

Lemma rank_of_insert R a k x :
  rank_of (<[a := k]> R) x = if decide (a = x) then k else rank_of R x.
Proof.
  unfold rank_of. case_decide; subst.
  - by rewrite lookup_insert_eq.
  - by rewrite lookup_insert_ne.
Qed.

(** What one call of [union] does to the tables. *)
Lemma union_ok V K P R fuel u v :
  NoDup V -> uf_inv V K P R -> u ∈ V -> v ∈ V -> K < fuel ->
  exists P' R' b,
    union fuel P R u v = Ok (P', R', b) /\ uf_inv V (S K) P' R' /\
    if b then
      ~ same_set P u v /\
      (forall x y, x ∈ V -> y ∈ V ->
         same_set P' x y <->
         same_set P x y \/ (same_set P x u /\ same_set P v y) \/
         (same_set P x v /\ same_set P u y)) /\
      S (nroots P' V) = nroots P V
    else
      same_set P u v /\ (forall x s, root P' x s <-> root P x s).
Proof.
  intros Hnd Hinv Hu Hv Hfuel. unfold union.
  destruct (find_ok V K R fuel P u Hinv Hu) as (P1 & ru & -> & Hru & Hinv1 & Heq1);
    [lia|]. simpl.
  destruct (find_ok V K R fuel P1 v Hinv1 Hv) as (P2 & rv & -> & Hrv1 & Hinv2 & Heq2);
    [lia|]. simpl.
  assert (forall x s, root P2 x s <-> root P x s) as Heq
    by (intros; by rewrite Heq2, Heq1).
  assert (root P v rv) as Hrv by (by apply Heq1).
  pose proof (root_elem _ _ _ _ _ _ Hinv Hu Hru) as Hruin.
  pose proof (root_elem _ _ _ _ _ _ Hinv Hv Hrv) as Hrvin.
  destruct (decide (ru = rv)) as [->|Hne].
  { exists P2, R, false. split_and!; [done | apply (uf_inv_weaken V K); [lia | done] | | done].
    by exists rv. }
  assert (~ same_set P u v) as Hdiff.
  { intros (s & H1 & H2). apply Hne. rewrite (root_det _ _ _ _ Hru H1).
    by rewrite (root_det _ _ _ _ Hrv H2). }
  destruct (uf_rank _ _ _ _ Hinv ru Hruin) as [kru Hkru].
  destruct (uf_rank _ _ _ _ Hinv rv Hrvin) as [krv Hkrv].
  rewrite (getitem_Some _ _ _ Hkru), (getitem_Some _ _ _ Hkrv); simpl.
  assert (P2 !! ru = Some ru) as Hpru by (by eapply root_is_root, Heq).
  assert (P2 !! rv = Some rv) as Hprv by (by eapply root_is_root, Heq).
  assert (rank_of R ru = kru) as Eru by (unfold rank_of; by rewrite Hkru).
  assert (rank_of R rv = krv) as Erv by (unfold rank_of; by rewrite Hkrv).
  assert (forall x y, x ∈ V -> y ∈ V ->
            same_set P x y \/ (root P2 x ru /\ root P2 y rv) \/
              (root P2 x rv /\ root P2 y ru) <->
            same_set P x y \/ (same_set P x u /\ same_set P v y) \/
              (same_set P x v /\ same_set P u y)) as Hshape.
  { intros x y _ _. rewrite !Heq.
    rewrite <- !(same_set_root P u ru), <- !(same_set_root P v rv) by done.
    split; (intros [?|[[? ?]|[? ?]]]; [by left|right; left|right; right]);
      split; auto using same_set_sym. }
  destruct (Nat.ltb_spec kru krv) as [Hlt|Hge].
  - exists (<[ru := rv]> P2), R, true. split_and!; [done | | done | |].
    + split.
      * intros x Hx. destruct (decide (ru = x)) as [->|Hrx].
        -- rewrite lookup_insert_eq. eauto.
        -- rewrite lookup_insert_ne by done. by apply (uf_parent _ _ _ _ Hinv2).
      * apply Hinv2.
      * intros x. pose proof (uf_bound _ _ _ _ Hinv2 x). lia.
      * intros x q Hx Hq. destruct (decide (ru = x)) as [->|Hrx].
        -- rewrite lookup_insert_eq in Hx. simplify_eq. lia.
        -- rewrite lookup_insert_ne in Hx by done.
           by apply (uf_climb _ _ _ _ Hinv2).
    + intros x y Hx Hy. rewrite <- Hshape by done.
      rewrite (link_same_set _ _ _ _ _ _ _ _ Hinv2) by done.
      by rewrite (same_set_equiv _ _ Heq).
    + rewrite nroots_link by done. by apply nroots_equiv.
  - set (R' := if Nat.eqb kru krv then <[ru := kru + 1]> R else R).
    exists (<[rv := ru]> P2), R', true.
    assert (forall x, rank_of R' x =
              if decide (ru = x)
              then (if decide (kru = krv) then kru + 1 else kru)
              else rank_of R x) as Hrank.
    { intros x. unfold R'. destruct (Nat.eqb_spec kru krv) as [Hk|Hk].
      - rewrite rank_of_insert. destruct (decide (ru = x)); [|done].
        by rewrite decide_True.
      - destruct (decide (ru = x)) as [<-|]; [|done].
        by rewrite decide_False. }
    split_and!; [| | done | |].
    + unfold R'. by destruct (Nat.eqb kru krv).
    + split.
      * intros x Hx. destruct (decide (rv = x)) as [<-|Hrx].
        -- rewrite lookup_insert_eq. eauto.
        -- rewrite lookup_insert_ne by done. by apply (uf_parent _ _ _ _ Hinv2).
      * intros x Hx. unfold R'. destruct (Nat.eqb kru krv); [|by apply Hinv2].
        destruct (decide (ru = x)) as [<-|Hrx].
        -- rewrite lookup_insert_eq. eauto.
        -- rewrite lookup_insert_ne by done. by apply Hinv2.
      * intros x. rewrite Hrank. pose proof (uf_bound _ _ _ _ Hinv2 x).
        pose proof (uf_bound _ _ _ _ Hinv2 ru).
        destruct (decide (ru = x)), (decide (kru = krv)); lia.
      * intros x q Hx Hq. rewrite !Hrank.
        destruct (decide (rv = x)) as [<-|Hrx].
        -- rewrite lookup_insert_eq in Hx. injection Hx as <-.
           rewrite (decide_False (P := ru = rv)) by done.
           rewrite (decide_True (P := ru = ru)) by done.
           destruct (decide (kru = krv)); lia.
        -- rewrite lookup_insert_ne in Hx by done.
           pose proof (uf_climb _ _ _ _ Hinv2 x q Hx Hq).
           assert (ru <> x) by (intros <-; rewrite Hpru in Hx; by injection Hx).
           rewrite (decide_False (P := ru = x)) by done.
           destruct (decide (ru = q)) as [<-|], (decide (kru = krv)); lia.
    + intros x y Hx Hy. rewrite <- Hshape by done.
      rewrite (link_same_set _ _ _ _ _ _ _ _ Hinv2) by done.
      rewrite (same_set_equiv _ _ Heq). tauto.
    + rewrite nroots_link by done. by apply nroots_equiv.
Qed.

(** ** Adding an edge to the tree *)

Lemma add_edge_pos G u v dd x :
  x ∈ Nx.nodes G ->
  pos x (Nx.nodes (Nx.add_edge G u v dd)) = pos x (Nx.nodes G).
Proof.
  intros Hx. destruct (add_edge_nodes_ext G u v dd) as [ext ->].
  by apply pos_elem_app.
Qed.

(** A new edge between distinct nodes shows up once in the edge view, in
    the direction given by the iteration order; nothing else changes. *)
Lemma add_edge_edges G u v dd :
  graph_wf G -> u <> v -> Nx.get_edge G u v = None ->
  exists e, (e = (u, v, dd) \/ e = (v, u, dd)) /\
            Nx.edges (Nx.add_edge G u v dd) ≡ₚ e :: Nx.edges G.
Proof.
  intros Hwf Huv Hnone.
  set (G' := Nx.add_edge G u v dd).
  assert (graph_wf G') as Hwf' by (by apply add_edge_wf).
  assert (Nx.get_edge G v u = None) as Hnone' by (by rewrite (wf_sym _ Hwf)).
  assert (u ∈ Nx.nodes G') as Hu by (apply add_edge_nodes_elem; auto).
  set (e := if decide (pos u (Nx.nodes G') <= pos v (Nx.nodes G'))
            then (u, v, dd) else (v, u, dd)).
  exists e. split; [unfold e; case_decide; auto|].
  assert (forall a b d', Nx.get_edge G a b = Some d' ->
            Nx.get_edge G' a b = Some d' /\
            pos a (Nx.nodes G') = pos a (Nx.nodes G) /\
            pos b (Nx.nodes G') = pos b (Nx.nodes G)) as Hold.
  { intros a b d' Hab.
    destruct (get_edge_nodes _ _ _ _ Hwf Hab) as [Ha Hb].
    unfold G'. rewrite add_edge_get_edge, !add_edge_pos by done.
    split; [|done]. rewrite decide_False; [done|].
    intros [[-> ->]|[-> ->]]; congruence. }
  apply NoDup_Permutation.
  - by apply NoDup_edges.
  - apply NoDup_cons. split; [|by apply NoDup_edges].
    unfold e. case_decide; rewrite elem_edges by done; intros [? _]; congruence.
  - intros [[a b] d']. rewrite elem_of_cons, !elem_edges by done. split.
    + intros [Hget Hpos]. unfold G' in Hget.
      rewrite add_edge_get_edge in Hget by done.
      destruct (decide ((a = u /\ b = v) \/ (a = v /\ b = u))) as [Hc|Hc].
      * left. injection Hget as <-. unfold e.
        destruct Hc as [[-> ->]|[-> ->]]; [by rewrite decide_True|].
        rewrite decide_False; [done|]. intros Hle. apply Huv.
        apply (pos_inj _ _ (Nx.nodes G')); [done | lia].
      * right. destruct (Hold a b d' Hget) as (_ & <- & <-). done.
    + intros [Heq|[Hget Hpos]].
      * unfold e in Heq. unfold G' in *. rewrite add_edge_get_edge by done.
        case_decide; simplify_eq.
        -- rewrite decide_True by auto. done.
        -- rewrite decide_True by auto. split; [done | lia].
      * destruct (Hold a b d' Hget) as (? & -> & ->). done.
Qed.

Lemma linked_perm es es' a b : es ≡ₚ es' -> linked es a b <-> linked es' a b.
Proof. intros Hp. unfold linked. by setoid_rewrite Hp. Qed.

Lemma linked_flip es u v dd a b :
  linked ((v, u, dd) :: es) a b <-> linked ((u, v, dd) :: es) a b.
Proof. rewrite !linked_cons. tauto. Qed.

Lemma connected_linked_iff es es' a b :
  (forall x y, linked es x y <-> linked es' x y) ->
  connected es a b <-> connected es' a b.
Proof. intros H. split; apply connected_mono; intros x y; apply H. Qed.

Lemma linked_app_single es u v dd a b :
  linked (es ++ [(u, v, dd)]) a b <-> linked ((u, v, dd) :: es) a b.
Proof.
  apply linked_perm. rewrite Permutation_app_comm. done.
Qed.

Lemma connected_nil a b : connected [] a b <-> a = b.
Proof.
  split; [|intros ->; apply connected_refl].
  destruct 1 as [|a c b (dd & [H|H]) _]; [done | |]; by apply elem_of_nil in H.
Qed.

(** ** The reducer *)

Lemma insert_by_weight_perm e l : insert_by_weight e l ≡ₚ e :: l.
Proof.
  induction l as [|e' l IH]; simpl; [done|].
  case_match; [done|]. rewrite IH. apply Permutation_swap.
Qed.

Lemma sorted_perm l : sorted l ≡ₚ l.
Proof.
  induction l as [|e l IH]; simpl; [done|].
  by rewrite insert_by_weight_perm, IH.
Qed.

Lemma lookup_table {A} (f : string -> A) (V : list string) (u : string) :
  (list_to_map ((fun n => (n, f n)) <$> V) : gmap string A) !! u =
  if decide (u ∈ V) then Some (f u) else None.
Proof.
  induction V as [|x V IH].
  - rewrite fmap_nil, list_to_map_nil, lookup_empty.
    rewrite decide_False; [done | apply not_elem_of_nil].
  - rewrite fmap_cons, list_to_map_cons.
    destruct (decide (x = u)) as [->|Hne].
    + rewrite lookup_insert_eq. rewrite decide_True; [done | left].
    + rewrite lookup_insert_ne by done. rewrite IH.
      repeat case_decide; try done.
      * exfalso. rewrite elem_of_cons in *. tauto.
      * exfalso. rewrite elem_of_cons in *. naive_solver.
Qed.

Lemma nroots_all P l :
  (forall u, u ∈ l -> P !! u = Some u) -> nroots P l = length l.
Proof.
  induction l as [|x l IH]; intros H; [done|].
  rewrite nroots_cons, decide_True by (apply H; left).
  simpl. f_equal. apply IH. intros u Hu. apply H. by right.
Qed.

Lemma kruskal_inv_init V :
  kruskal_inv V []
    (list_to_map ((fun n => (n, n)) <$> V))
    (list_to_map ((fun n => (n, O)) <$> V)) Nx.empty.
Proof.
  set (P := list_to_map ((fun n => (n, n)) <$> V) : gmap string string).
  set (R := list_to_map ((fun n => (n, O)) <$> V) : gmap string nat).
  assert (forall u p, P !! u = Some p -> p = u /\ u ∈ V) as HP.
  { intros u p. unfold P. rewrite lookup_table. case_decide; [|done].
    intros; by simplify_eq. }
  assert (forall u, u ∈ V -> P !! u = Some u) as HP'.
  { intros u Hu. unfold P. rewrite lookup_table. by rewrite decide_True. }
  assert (forall u, rank_of R u = O) as HR.
  { intros u. unfold rank_of, R. rewrite lookup_table. by case_decide. }
  split.
  - split.
    + intros u Hu. exists u. auto.
    + intros u Hu. unfold R. rewrite lookup_table, decide_True by done. eauto.
    + intros u. rewrite HR. simpl. lia.
    + intros u p Hu Hne. by destruct (HP u p Hu).
  - apply graph_wf_empty.
  - intros n. split.
    + intros H. by apply elem_of_nil in H.
    + intros (c & dd & [H|H]); by apply elem_of_nil in H.
  - intros x y Hx Hy. change (Nx.edges Nx.empty) with (@nil Edge).
    rewrite connected_nil. split.
    + intros (r & H1 & H2).
      pose proof (root_of_root _ _ _ (HP' x Hx) H1).
      pose proof (root_of_root _ _ _ (HP' y Hy) H2). congruence.
    + intros ->. exists y. split; apply root_self; auto.
  - intros x y (dd & [H|H]); by apply elem_of_nil in H.
  - done.
  - done.
  - apply cycle_free_nil.
  - change (Nx.edges Nx.empty) with (@nil Edge). simpl.
    by apply nroots_all.
Qed.

(** One iteration of the loop keeps the invariant. *)
Lemma kruskal_step V seen P R T fuel u v dd :
  NoDup V -> kruskal_inv V seen P R T -> u ∈ V -> v ∈ V ->
  length seen < fuel ->
  exists P' R' b,
    union fuel P R u v = Ok (P', R', b) /\
    kruskal_inv V (seen ++ [(u, v, dd)]) P' R'
      (if b then Nx.add_edge T u v dd else T).
Proof.
  intros Hnd Hinv Hu Hv Hfuel.
  destruct (union_ok V _ P R fuel u v Hnd (ki_uf _ _ _ _ _ Hinv) Hu Hv Hfuel)
    as (P' & R' & b & Hunion & Huf & Hb).
  exists P', R', b. split; [done|].
  assert (length (seen ++ [(u, v, dd)]) = S (length seen)) as Hlen
    by (rewrite length_app; simpl; lia).
  pose proof (ki_wf _ _ _ _ _ Hinv) as Hwf.
  destruct b.
  - destruct Hb as (Hdiff & Hsame & Hroots).
    assert (~ connected (Nx.edges T) u v) as Hnc
      by (by rewrite <- (ki_same _ _ _ _ _ Hinv)).
    assert (u <> v) as Huv by (intros ->; apply Hnc, connected_refl).
    assert (Nx.get_edge T u v = None) as Hnone.
    { destruct (Nx.get_edge T u v) eqn:E; [|done]. exfalso. apply Hnc.
      apply connected_link, linked_edges; [done|]. rewrite E. eauto. }
    destruct (add_edge_edges T u v dd Hwf Huv Hnone) as (e & He & Hperm).
    assert (forall a b, linked (Nx.edges (Nx.add_edge T u v dd)) a b <->
                        linked ((u, v, dd) :: Nx.edges T) a b) as Hlinked.
    { intros a b. rewrite (linked_perm _ _ _ _ Hperm).
      destruct He as [->| ->]; [done | apply linked_flip]. }
    split.
    + by rewrite Hlen.
    + by apply add_edge_wf.
    + intros n. rewrite add_edge_nodes_elem, (ki_nodes _ _ _ _ _ Hinv).
      setoid_rewrite Hlinked. setoid_rewrite linked_cons. split.
      * intros [->|[->|[c Hc]]]; eauto 6.
      * intros (c & [[-> _]|[[-> _]|Hc]]); eauto.
    + intros x y Hx Hy. rewrite Hsame by done.
      rewrite (connected_linked_iff _ _ _ _ Hlinked), connected_cons.
      rewrite !(ki_same _ _ _ _ _ Hinv) by done. done.
    + intros x y Hxy. apply linked_app_single in Hxy.
      apply (connected_linked_iff _ _ _ _ Hlinked).
      apply linked_cons in Hxy as [[-> ->]|[[-> ->]|Hxy]].
      * apply connected_cons_head.
      * apply connected_sym, connected_cons_head.
      * apply connected_cons_weaken. by apply (ki_spans _ _ _ _ _ Hinv).
    + intros x y Hxy. apply linked_app_single. apply Hlinked in Hxy.
      rewrite linked_cons in *.
      destruct Hxy as [?|[?|Hxy]]; auto.
      right; right. by apply (ki_sub _ _ _ _ _ Hinv).
    + intros a b d'. rewrite add_edge_get_edge by done.
      rewrite !elem_of_app, !list_elem_of_singleton.
      case_decide as Hc.
      * intros; simplify_eq. destruct Hc as [[-> ->]|[-> ->]]; auto.
      * intros Hab. destruct (ki_attr _ _ _ _ _ Hinv a b d' Hab); auto.
    + apply (cycle_free_perm (e :: Nx.edges T)); [done|].
      destruct He as [->| ->]; apply cycle_free_cons;
        try apply (ki_forest _ _ _ _ _ Hinv); [done|].
      intros Hc. by apply Hnc, connected_sym.
    + rewrite Hperm. simpl. pose proof (ki_count _ _ _ _ _ Hinv). lia.
  - destruct Hb as (Hsame & Heqv). split.
    + by rewrite Hlen.
    + done.
    + apply Hinv.
    + intros x y Hx Hy. rewrite (same_set_equiv _ _ Heqv).
      by apply (ki_same _ _ _ _ _ Hinv).
    + intros x y Hxy. apply linked_app_single in Hxy.
      apply linked_cons in Hxy as [[-> ->]|[[-> ->]|Hxy]].
      * by apply (ki_same _ _ _ _ _ Hinv).
      * apply connected_sym. by apply (ki_same _ _ _ _ _ Hinv).
      * by apply (ki_spans _ _ _ _ _ Hinv).
    + intros x y Hxy. apply linked_app_single, linked_cons.
      right; right. by apply (ki_sub _ _ _ _ _ Hinv).
    + intros a b d' Hab. rewrite !elem_of_app.
      destruct (ki_attr _ _ _ _ _ Hinv a b d' Hab); auto.
    + apply Hinv.
    + rewrite (nroots_equiv _ _ _ Heqv). apply Hinv.
Qed.

(** The whole loop: it terminates within the fuel and ends in the invariant
    for all the edges it was given. *)
Lemma kruskal_loop_ok V fuel : forall es seen P R T,
  NoDup V -> kruskal_inv V seen P R T ->
  (forall u v dd, (u, v, dd) ∈ es -> u ∈ V /\ v ∈ V) ->
  length seen + length es < fuel ->
  exists P' R' T',
    kruskal_loop fuel P R T es = Ok T' /\
    kruskal_inv V (seen ++ es) P' R' T'.
Proof.
  induction es as [|[[u v] dd] es IH]; intros seen P R T Hnd Hinv Hends Hfuel.
  { exists P, R, T. rewrite app_nil_r. done. }
  simpl in Hfuel. destruct (Hends u v dd) as [Hu Hv]; [left|].
  destruct (kruskal_step V seen P R T fuel u v dd Hnd Hinv Hu Hv)
    as (P1 & R1 & b & Hunion & Hinv1); [lia|].
  simpl. rewrite Hunion; simpl.
  destruct (IH (seen ++ [(u, v, dd)]) P1 R1
              (if b then Nx.add_edge T u v dd else T) Hnd Hinv1)
    as (P' & R' & T' & Hloop & Hinv').
  - intros a b' d' Hin. apply (Hends a b' d'). by right.
  - rewrite length_app. simpl. lia.
  - exists P', R', T'. split; [done|].
    by rewrite <- app_assoc in Hinv'.
Qed.

(** [kruskal_mst] always returns, and with it the loop invariant for all
    the edges of the graph. *)
Lemma kruskal_mst_ok G :
  graph_wf G ->
  exists P R T,
    kruskal_mst G = Ok T /\
    kruskal_inv (Nx.nodes G) (sorted (Nx.edges G)) P R T.
Proof.
  intros Hwf. unfold kruskal_mst, kruskal_mst_with.
  destruct (kruskal_loop_ok (Nx.nodes G) (S (length (Nx.edges G)))
              (sorted (Nx.edges G)) [] _ _ Nx.empty
              (wf_nodup _ Hwf) (kruskal_inv_init (Nx.nodes G)))
    as (P & R & T & Hloop & Hinv).
  - intros u v dd Hin. rewrite sorted_perm in Hin.
    apply elem_edges in Hin as [Hin _]; [|done].
    by apply get_edge_nodes in Hin.
  - rewrite sorted_perm. simpl. lia.
  - by exists P, R, T.
Qed.

(** More fuel changes nothing. *)
Lemma find_fuel_mono fuel fuel' : forall P u x,
  find fuel P u = Ok x -> fuel <= fuel' -> find fuel' P u = Ok x.
Proof.
  revert fuel'. induction fuel as [|fuel IH]; intros fuel' P u x H Hle; [done|].
  destruct fuel' as [|fuel']; [lia|]. rewrite find_S in *.
  destruct (getitem P u) as [pu|]; simpl in *; [|done].
  case_decide; [done|].
  destruct (find fuel P pu) as [[P1 r]|] eqn:E; simpl in H; [|done].
  rewrite (IH fuel' P pu _ E) by lia. done.
Qed.

Lemma union_fuel_mono fuel fuel' P R u v x :
  union fuel P R u v = Ok x -> fuel <= fuel' -> union fuel' P R u v = Ok x.
Proof.
  unfold union. intros H Hle.
  destruct (find fuel P u) as [[P1 ru]|] eqn:E1; simpl in H; [|done].
  rewrite (find_fuel_mono _ _ _ _ _ E1 Hle); simpl.
  destruct (find fuel P1 v) as [[P2 rv]|] eqn:E2; simpl in H; [|done].
  rewrite (find_fuel_mono _ _ _ _ _ E2 Hle); simpl. done.
Qed.

Lemma kruskal_loop_fuel_mono fuel fuel' : forall es P R T T',
  kruskal_loop fuel P R T es = Ok T' -> fuel <= fuel' ->
  kruskal_loop fuel' P R T es = Ok T'.
Proof.
  induction es as [|[[u v] dd] es IH]; intros P R T T' H Hle; [done|].
  simpl in *.
  destruct (union fuel P R u v) as [[[P1 R1] b]|] eqn:E; simpl in H; [|done].
  rewrite (union_fuel_mono _ _ _ _ _ _ _ E Hle); simpl. by apply IH.
Qed.

(** The budget of [kruskal_mst] is not felt: any larger one gives the same
    tree set. *)
Lemma kruskal_mst_fuel_irrelevant G fuel :
  graph_wf G -> S (length (Nx.edges G)) <= fuel ->
  kruskal_mst_with fuel G = kruskal_mst G.
Proof.
  intros Hwf Hle. destruct (kruskal_mst_ok G Hwf) as (P & R & T & Hmst & _).
  rewrite Hmst. unfold kruskal_mst, kruskal_mst_with in *.
  by eapply kruskal_loop_fuel_mono.
Qed.

(** ** The graph builder *)

Lemma set_node_attr_lookup G n f G' m :
  Nx.set_node_attr G n f = Ok G' ->
  oget (g_node G') m =
  if decide (n = m) then f <$> oget (g_node G) n else oget (g_node G) m.
Proof.
  intros H. destruct (set_node_attr_spec _ _ _ _ H) as (_ & _ & a & Ha & ->).
  case_decide; subst.
  - by rewrite oget_oset_eq, Ha.
  - by rewrite oget_oset_ne.
Qed.

(** What a successful pass over one row has read and written. *)
Lemma load_row_Ok G row G' :
  load_row G row = Ok G' ->
  exists src dst dist risk slat slon sst dlat dlon dstt,
    row_text row "Source" = Ok src /\
    row_text row "Destination" = Ok dst /\
    row_num row "Distance (km)" = Ok dist /\
    row_num row "Risk Level" = Ok risk /\
    row_num row "Source_Latitude" = Ok slat /\
    row_num row "Source_Longitude" = Ok slon /\
    row_text row "Source_State" = Ok sst /\
    row_num row "Destination_Latitude" = Ok dlat /\
    row_num row "Destination_Longitude" = Ok dlon /\
    row_text row "Destination_State" = Ok dstt /\
    let G1 := Nx.add_edge G src dst
                (mkEdgeAttr dist risk (dist + risk * 50)) in
    g_adj G' = g_adj G1 /\ Nx.nodes G' = Nx.nodes G1 /\
    forall n, oget (g_node G') n =
      if decide (dst = n) then Some (mkNodeAttr (Some dlat) (Some dlon) (Some dstt))
      else if decide (src = n)
           then Some (mkNodeAttr (Some slat) (Some slon) (Some sst))
           else oget (g_node G1) n.
Proof.
  unfold load_row. intros H.
  destruct (row_text row "Source") as [src|]; simpl in H; [|done].
  destruct (row_text row "Destination") as [dst|]; simpl in H; [|done].
  destruct (row_num row "Distance (km)") as [dist|]; simpl in H; [|done].
  destruct (row_num row "Risk Level") as [risk|]; simpl in H; [|done].
  set (G1 := Nx.add_edge G src dst _) in *.
  destruct (row_num row "Source_Latitude") as [slat|]; simpl in H; [|done].
  destruct (Nx.set_node_attr G1 src _) as [G2|] eqn:E2; simpl in H; [|done].
  destruct (row_num row "Source_Longitude") as [slon|]; simpl in H; [|done].
  destruct (Nx.set_node_attr G2 src _) as [G3|] eqn:E3; simpl in H; [|done].
  destruct (row_text row "Source_State") as [sst|]; simpl in H; [|done].
  destruct (Nx.set_node_attr G3 src _) as [G4|] eqn:E4; simpl in H; [|done].
  destruct (row_num row "Destination_Latitude") as [dlat|]; simpl in H; [|done].
  destruct (Nx.set_node_attr G4 dst _) as [G5|] eqn:E5; simpl in H; [|done].
  destruct (row_num row "Destination_Longitude") as [dlon|]; simpl in H; [|done].
  destruct (Nx.set_node_attr G5 dst _) as [G6|] eqn:E6; simpl in H; [|done].
  destruct (row_text row "Destination_State") as [dstt|]; simpl in H; [|done].
  exists src, dst, dist, risk, slat, slon, sst, dlat, dlon, dstt.
  split_and!; try done.
  - destruct (set_node_attr_spec _ _ _ _ H) as (-> & _).
    destruct (set_node_attr_spec _ _ _ _ E6) as (-> & _).
    destruct (set_node_attr_spec _ _ _ _ E5) as (-> & _).
    destruct (set_node_attr_spec _ _ _ _ E4) as (-> & _).
    destruct (set_node_attr_spec _ _ _ _ E3) as (-> & _).
    by destruct (set_node_attr_spec _ _ _ _ E2) as (-> & _).
  - destruct (set_node_attr_spec _ _ _ _ H) as (_ & -> & _).
    destruct (set_node_attr_spec _ _ _ _ E6) as (_ & -> & _).
    destruct (set_node_attr_spec _ _ _ _ E5) as (_ & -> & _).
    destruct (set_node_attr_spec _ _ _ _ E4) as (_ & -> & _).
    destruct (set_node_attr_spec _ _ _ _ E3) as (_ & -> & _).
    by destruct (set_node_attr_spec _ _ _ _ E2) as (_ & -> & _).
  - intros n.
    assert (is_Some (oget (g_node G1) src)) as [a0 Ha0].
    { destruct (set_node_attr_spec _ _ _ _ E2) as (_ & _ & a & Ha & _). eauto. }
    assert (is_Some (oget (g_node G1) dst)) as [b0 Hb0].
    { apply oget_keys_Some. apply (add_edge_nodes_elem G src dst). auto. }
    pose proof (fun m => set_node_attr_lookup _ _ _ _ m H) as L7.
    pose proof (fun m => set_node_attr_lookup _ _ _ _ m E6) as L6.
    pose proof (fun m => set_node_attr_lookup _ _ _ _ m E5) as L5.
    pose proof (fun m => set_node_attr_lookup _ _ _ _ m E4) as L4.
    pose proof (fun m => set_node_attr_lookup _ _ _ _ m E3) as L3.
    pose proof (fun m => set_node_attr_lookup _ _ _ _ m E2) as L2.
    repeat first [rewrite L7 | rewrite L6 | rewrite L5 | rewrite L4
                 | rewrite L3 | rewrite L2].
    clear L7 L6 L5 L4 L3 L2 H E6 E5 E4 E3 E2.
    repeat (case_decide; simplify_eq); rewrite ?Ha0, ?Hb0; try done.
Qed.

Lemma loaded_empty : loaded Nx.empty.
Proof. split; [apply graph_wf_empty | done | done]. Qed.

Lemma get_edge_adj G G' a b :
  g_adj G' = g_adj G -> Nx.get_edge G' a b = Nx.get_edge G a b.
Proof. unfold Nx.get_edge. by intros ->. Qed.

(** A row writes one edge, with the weight formula, and nothing else. *)
Lemma load_row_get_edge G row G' :
  graph_wf G -> load_row G row = Ok G' ->
  exists src dst dist risk,
    row_text row "Source" = Ok src /\
    row_text row "Destination" = Ok dst /\
    row_num row "Distance (km)" = Ok dist /\
    row_num row "Risk Level" = Ok risk /\
    forall a b,
      Nx.get_edge G' a b =
      if decide ((a = src /\ b = dst) \/ (a = dst /\ b = src))
      then Some (mkEdgeAttr dist risk (dist + risk * 50))
      else Nx.get_edge G a b.
Proof.
  intros Hwf H. apply load_row_Ok in H
    as (src & dst & dist & risk & ? & ? & ? & ? & ? & ? & Hs & Hd & Hdi & Hr &
        _ & _ & _ & _ & _ & _ & Hadj & _).
  exists src, dst, dist, risk. split_and!; try done.
  intros a b. rewrite (get_edge_adj _ _ _ _ Hadj).
  by apply add_edge_get_edge.
Qed.

Lemma load_row_loaded G row G' : loaded G -> load_row G row = Ok G' -> loaded G'.
Proof.
  intros [Hwf Hw Hat] H.
  destruct (load_row_get_edge _ _ _ Hwf H)
    as (src & dst & dist & risk & _ & _ & _ & _ & Hget).
  apply load_row_Ok in H
    as (s & d & di & ri & slat & slon & sst & dlat & dlon & dstt &
        _ & _ & _ & _ & _ & _ & _ & _ & _ & _ & Hadj & Hnodes & Hattr).
  set (G1 := Nx.add_edge G s d _) in *.
  assert (graph_wf G1) as Hwf1 by (by apply add_edge_wf).
  split.
  - split.
    + rewrite Hadj. unfold Nx.nodes in Hnodes. rewrite Hnodes. apply Hwf1.
    + unfold Nx.nodes in Hnodes. rewrite Hnodes. apply Hwf1.
    + rewrite Hadj. apply Hwf1.
    + intros a b. rewrite !(get_edge_adj _ _ _ _ Hadj). apply Hwf1.
  - intros a b dd. rewrite Hget. case_decide; [|apply Hw].
    intros; by simplify_eq.
  - intros n a. rewrite Hattr. repeat case_decide.
    + intros; simplify_eq; simpl; eauto.
    + intros; simplify_eq; simpl; eauto.
    + unfold G1, Nx.add_edge, Nx.set_adj; simpl.
      assert (forall A x, oget (g_node (Nx.touch A x)) n =
                          if decide (x = n) then
                            if Nx.has_node A x then oget (g_node A) n
                            else Some (mkNodeAttr None None None)
                          else oget (g_node A) n) as Htouch.
      { intros A x. unfold Nx.touch. destruct (Nx.has_node A x); simpl.
        - by case_decide.
        - case_decide; subst; [apply oget_oset_eq | by apply oget_oset_ne]. }
      rewrite !Htouch. rewrite !decide_False by done. apply Hat.
Qed.

Lemma load_rows_loaded rows : forall G G',
  loaded G -> load_rows G rows = Ok G' -> loaded G'.
Proof.
  induction rows as [|row rows IH]; intros G G' HG H; simpl in H.
  - by simplify_eq.
  - destruct (load_row G row) as [G1|] eqn:E; simpl in H; [|done].
    eapply IH; [|exact H]. by eapply load_row_loaded.
Qed.

Lemma load_rows_app rows1 rows2 G :
  load_rows G (rows1 ++ rows2) = (G1 ← load_rows G rows1; load_rows G1 rows2).
Proof.
  revert G. induction rows1 as [|row rows1 IH]; intros G; simpl; [done|].
  destruct (load_row G row); simpl; [apply IH | done].
Qed.

Lemma load_graph_Ok read_csv csv_path G :
  load_graph read_csv csv_path = Ok G ->
  exists rows, read_csv csv_path = CsvFrame rows /\
               load_rows Nx.empty rows = Ok G.
Proof.
  unfold load_graph. destruct (read_csv csv_path); try done. eauto.
Qed.

Lemma load_graph_loaded read_csv csv_path G :
  load_graph read_csv csv_path = Ok G -> loaded G.
Proof.
  intros H. apply load_graph_Ok in H as (rows & _ & H).
  eapply load_rows_loaded; [apply loaded_empty | exact H].
Qed.

(** * The claims *)

(** C1. For the three rows A-B (distance 10, risk 1), B-C (distance 10,
    risk 1) and A-C (distance 5, risk 4), whatever their geographic cells,
    [kruskal_mst] keeps A-B and B-C and drops A-C, and the query with
    source "a" and destination "c" is answered with status 200, the path
    A->B, B->C, total distance 20 and total risk 2. *)
Theorem three_row_corridor
    (get_close_matches : string -> list string -> list string)
    (csv_path : string) (g1 g2 g3 g4 g5 g6 : Geo) :
  let rows := [mk_row "A" "B" 10 1 g1 g2; mk_row "B" "C" 10 1 g3 g4;
               mk_row "A" "C" 5 4 g5 g6] in
  exists G T path nodes,
    load_graph (fun _ => CsvFrame rows) csv_path = Ok G /\
    kruskal_mst G = Ok T /\
    (fun e => (e.1.1, e.1.2)) <$> Nx.edges T = [("A", "B"); ("B", "C")] /\
    is_Some (Nx.get_edge T "A" "B") /\
    is_Some (Nx.get_edge T "B" "C") /\
    Nx.get_edge T "A" "C" = None /\
    Nx.get_edge T "C" "A" = None /\
    get_corridor get_close_matches G (Some "a") (Some "c") =
      Ok (Response (CorridorBody path nodes 20 2) 200) /\
    legs path = [("A", "B", 10%Z, 1%Z); ("B", "C", 10%Z, 1%Z)] /\
    okeys nodes = ["A"; "B"; "C"].
Proof.
  intros rows. eexists _, _, _, _.
  split; [vm_compute; reflexivity|].
  split; [vm_compute; reflexivity|].
  split; [vm_compute; reflexivity|].
  split; [vm_compute; eauto|].
  split; [vm_compute; eauto|].
  split; [vm_compute; reflexivity|].
  split; [vm_compute; reflexivity|].
  split; [vm_compute; reflexivity|].
  split; vm_compute; reflexivity.
Qed.

(** ** Components and the size of the forest *)

Lemma connected_via es es' a b :
  (forall x y, linked es x y -> connected es' x y) ->
  connected es a b -> connected es' a b.
Proof.
  intros Hsub. induction 1 as [|a c b Hl _ IH]; [apply connected_refl|].
  eapply connected_trans; [by apply Hsub | done].
Qed.

(** Any two transversals of the same graph have the same length: the
    number of connected components is well defined. *)
Lemma transversal_length V es reps reps' :
  transversal V es reps -> transversal V es reps' ->
  length reps = length reps'.
Proof.
  assert (forall r1 r2, transversal V es r1 -> transversal V es r2 ->
                        length r1 <= length r2) as Hle.
  { intros r1 r2 H1 H2. apply (rel_inj_length (connected es)).
    - apply H1.
    - intros x Hx. apply (tr_covers _ _ _ H2). by apply (tr_nodes _ _ _ H1).
    - intros x x' y Hx Hx' Hxy Hx'y. apply (tr_apart _ _ _ H1); try done.
      eapply connected_trans; [exact Hxy | by apply connected_sym]. }
  intros H1 H2. apply Nat.le_antisymm; by apply Hle.
Qed.

(** At the end of the loop the tree connects exactly what the graph does. *)
Lemma kruskal_inv_connected G P R T :
  kruskal_inv (Nx.nodes G) (sorted (Nx.edges G)) P R T ->
  forall x y, connected (Nx.edges T) x y <-> connected (Nx.edges G) x y.
Proof.
  intros Hinv x y. split.
  - apply connected_mono. intros a b Hab.
    apply (linked_perm _ _ _ _ (sorted_perm (Nx.edges G))).
    by apply (ki_sub _ _ _ _ _ Hinv).
  - apply connected_via. intros a b Hab. apply (ki_spans _ _ _ _ _ Hinv).
    by apply (linked_perm _ _ _ _ (sorted_perm (Nx.edges G))).
Qed.

(** The representatives left in the union-find table form a transversal. *)
Lemma kruskal_inv_transversal V seen P R T :
  NoDup V -> kruskal_inv V seen P R T ->
  transversal V (Nx.edges T) (filter (fun n => P !! n = Some n) V).
Proof.
  intros Hnd Hinv. pose proof (ki_uf _ _ _ _ _ Hinv) as Huf. split.
  - by apply NoDup_filter.
  - intros r Hr. by apply list_elem_of_filter in Hr as [_ Hr].
  - intros n Hn. destruct (root_exists _ _ _ _ _ Huf Hn) as (r & Hr & Hrin).
    exists r. split.
    + apply list_elem_of_filter. split; [by eapply root_is_root | done].
    + apply (ki_same _ _ _ _ _ Hinv); [done | done|].
      exists r. split; [done|]. apply root_self. by eapply root_is_root.
  - intros r r' Hr Hr' Hc.
    apply list_elem_of_filter in Hr as [Hr Hrin].
    apply list_elem_of_filter in Hr' as [Hr' Hrin'].
    apply (ki_same _ _ _ _ _ Hinv) in Hc as (s & H1 & H2); [|done..].
    pose proof (root_of_root _ _ _ Hr H1) as E1.
    pose proof (root_of_root _ _ _ Hr' H2) as E2. congruence.
Qed.

Lemma transversal_same_connected V es es' reps :
  (forall x y, connected es x y <-> connected es' x y) ->
  transversal V es reps -> transversal V es' reps.
Proof.
  intros Heq [H1 H2 H3 H4]. split; try done.
  - intros n Hn. destruct (H3 n Hn) as (r & Hr & Hc). exists r.
    split; [done | by apply Heq].
  - intros r r' Hr Hr' Hc. apply H4; try done. by apply Heq.
Qed.

(** C2. For every graph built by [load_graph], [kruskal_mst] returns a
    tree set [T] whose edges form no cycle and number |V| - c, where c is
    the number of connected components of the graph: the length of any list
    holding one node of each component (such lists exist). *)
Theorem kruskal_forest_size read_csv csv_path G :
  load_graph read_csv csv_path = Ok G ->
  exists T,
    kruskal_mst G = Ok T /\
    cycle_free (Nx.edges T) /\
    (exists reps, transversal (Nx.nodes G) (Nx.edges G) reps) /\
    forall reps, transversal (Nx.nodes G) (Nx.edges G) reps ->
      length reps <= length (Nx.nodes G) /\
      length (Nx.edges T) = length (Nx.nodes G) - length reps.
Proof.
  intros Hload. apply load_graph_loaded in Hload as [Hwf _ _].
  destruct (kruskal_mst_ok G Hwf) as (P & R & T & Hmst & Hinv).
  pose proof (kruskal_inv_transversal _ _ _ _ _ (wf_nodup _ Hwf) Hinv) as Htr.
  apply (transversal_same_connected _ _ _ _ (kruskal_inv_connected _ _ _ _ Hinv))
    in Htr.
  exists T. split_and!; [done | apply Hinv | by eexists |].
  intros reps Hreps.
  rewrite (transversal_length _ _ _ _ Hreps Htr).
  pose proof (ki_count _ _ _ _ _ Hinv) as Hcount. unfold nroots, Nx.nodes in *.
  lia.
Qed.

(** The nodes of the tree set: those with an edge to another node. *)
Lemma kruskal_mst_nodes G :
  graph_wf G ->
  exists T,
    kruskal_mst G = Ok T /\
    forall n,
      Nx.has_node T n = true <->
      exists m, m <> n /\ is_Some (Nx.get_edge G n m).
Proof.
  intros Hwf.
  destruct (kruskal_mst_ok G Hwf) as (P & R & T & Hmst & Hinv).
  exists T. split; [done|]. intros n. rewrite has_node_true.
  rewrite (ki_nodes _ _ _ _ _ Hinv). split.
  - intros (c & Hc). exists c. split.
    + intros ->. destruct Hc as (dd & [Hin|Hin]);
        apply list_elem_of_split in Hin as (l1 & l2 & Heq);
        apply (ki_forest _ _ _ _ _ Hinv _ _ _ _ _ Heq), connected_refl.
    + apply linked_edges; [done|].
      apply (linked_perm _ _ _ _ (sorted_perm (Nx.edges G))).
      by apply (ki_sub _ _ _ _ _ Hinv).
  - intros (m & Hne & Hm). apply linked_edges in Hm; [|done].
    apply (connected_endpoint _ n m); [|done].
    apply (kruskal_inv_connected _ _ _ _ Hinv). by apply connected_link.
Qed.

Lemma kruskal_forest_size_witness :
  exists G T,
    load_graph sample_csv "data.csv" = Ok G /\
    kruskal_mst G = Ok T /\
    cycle_free (Nx.edges T) /\
    forall reps, transversal (Nx.nodes G) (Nx.edges G) reps ->
      length reps <= length (Nx.nodes G) /\
      length (Nx.edges T) = length (Nx.nodes G) - length reps.
Proof.
  eexists. 
  destruct (kruskal_forest_size sample_csv "data.csv" _
              ltac:(vm_compute; reflexivity)) as (T & H1 & H2 & _ & H3).
  exists T. split; [vm_compute; reflexivity|]. split_and!; assumption.
Defined.

(** C4, as amended. For every graph built by [load_graph], the nodes of the
    tree set returned by [kruskal_mst] are exactly the nodes of the graph
    that have an edge to another node: the membership test of
    [get_corridor] succeeds on those and fails on a node whose only edge is
    a self-loop. *)
Theorem kruskal_nodes read_csv csv_path G :
  load_graph read_csv csv_path = Ok G ->
  exists T,
    kruskal_mst G = Ok T /\
    forall n,
      Nx.has_node T n = true <->
      exists m, m <> n /\ is_Some (Nx.get_edge G n m).
Proof.
  intros Hload. apply kruskal_mst_nodes.
  by apply load_graph_loaded in Hload as [Hwf _ _].
Qed.

Lemma kruskal_nodes_witness :
  exists G T,
    load_graph sample_csv "data.csv" = Ok G /\
    kruskal_mst G = Ok T /\
    forall n,
      Nx.has_node T n = true <->
      exists m, m <> n /\ is_Some (Nx.get_edge G n m).
Proof.
  eexists.
  destruct (kruskal_nodes sample_csv "data.csv" _
              ltac:(vm_compute; reflexivity)) as (T & H1 & H2).
  exists T. split; [vm_compute; reflexivity|]. split; assumption.
Defined.

(** C4 as stated fails: a row from A to A puts the node A in the graph, and
    the tree set has no node at all, so that the query for A is answered
    from the membership test. *)
Lemma self_loop_node_not_in_tree :
  exists G T,
    load_graph (fun _ => CsvFrame [self_loop_row]) "data.csv" = Ok G /\
    "A" ∈ Nx.nodes G /\
    kruskal_mst G = Ok T /\
    Nx.has_node T "A" = false /\
    Nx.nodes T = [] /\
    get_corridor no_close_matches G (Some "A") (Some "A") =
      Ok (Response (ErrorBody "No path found") 404).
Proof.
  eexists _, _. split; [vm_compute; reflexivity|].
  split; [apply (bool_decide_eq_true_1 _); vm_compute; reflexivity|].
  split; [vm_compute; reflexivity|].
  split_and!; vm_compute; reflexivity.
Qed.

(** ** The edge order *)

Lemma insert_by_weight_sorted e l :
  StronglySorted weight_le l -> StronglySorted weight_le (insert_by_weight e l).
Proof.
  induction 1 as [|e' l Hs IH Hall]; simpl.
  - apply SSorted_cons; [apply SSorted_nil | apply Forall_nil_2].
  - destruct (Z.leb_spec (Weight e.2) (Weight e'.2)) as [Hle|Hgt].
    + apply SSorted_cons; [by apply SSorted_cons|].
      apply Forall_cons. split; [done|].
      eapply Forall_impl; [exact Hall|]. unfold weight_le. intros; simpl in *. lia.
    + apply SSorted_cons; [done|]. rewrite insert_by_weight_perm.
      apply Forall_cons. split; [unfold weight_le; lia | done].
Qed.

Lemma sorted_sorted l : StronglySorted weight_le (sorted l).
Proof.
  induction l as [|e l IH]; simpl; [apply SSorted_nil|].
  by apply insert_by_weight_sorted.
Qed.




(** ** Missing columns *)

Lemma row_text_Ok row c : is_Some (oget (text_cells row) c) ->
  exists v, row_text row c = Ok v.
Proof. intros [v Hv]. exists v. unfold row_text. by rewrite Hv. Qed.

Lemma row_num_Ok row c : is_Some (oget (num_cells row) c) ->
  exists v, row_num row c = Ok v.
Proof. intros [v Hv]. exists v. unfold row_num. by rewrite Hv. Qed.

Lemma row_text_cases row c :
  (exists v, row_text row c = Ok v /\ oget (text_cells row) c = Some v) \/
  (row_text row c = Raise (KeyError c) /\ oget (text_cells row) c = None).
Proof. unfold row_text. destruct (oget (text_cells row) c); eauto. Qed.

Lemma row_num_cases row c :
  (exists v, row_num row c = Ok v /\ oget (num_cells row) c = Some v) \/
  (row_num row c = Raise (KeyError c) /\ oget (num_cells row) c = None).
Proof. unfold row_num. destruct (oget (num_cells row) c); eauto. Qed.

(** A row either has all ten cells and is loaded, or lacks one and stops
    the loader with the [KeyError] of a label that is read. *)
Lemma load_row_cases G row :
  (row_complete row /\ exists G', load_row G row = Ok G') \/
  (~ row_complete row /\
   exists c, c ∈ required_columns /\ load_row G row = Raise (KeyError c)).
Proof.
  assert (forall c, c ∈ text_columns ->
            oget (text_cells row) c = None -> ~ row_complete row) as Ht.
  { intros c Hc Hnone [H _]. rewrite Forall_forall in H.
    destruct (H c Hc) as [v Hv]. congruence. }
  assert (forall c, c ∈ num_columns ->
            oget (num_cells row) c = None -> ~ row_complete row) as Hn.
  { intros c Hc Hnone [_ H]. rewrite Forall_forall in H.
    destruct (H c Hc) as [v Hv]. congruence. }
  assert (forall c, c ∈ text_columns -> c ∈ required_columns) as Htr.
  { intros c Hc. unfold required_columns. rewrite elem_of_app. auto. }
  assert (forall c, c ∈ num_columns -> c ∈ required_columns) as Hnr.
  { intros c Hc. unfold required_columns. rewrite elem_of_app. auto. }
  assert (forall c, c ∈ text_columns -> oget (text_cells row) c = None ->
            forall r : result Graph, r = Raise (KeyError c) ->
            ~ row_complete row /\
            exists c, c ∈ required_columns /\ r = Raise (KeyError c)) as Ft.
  { intros c Hc Hnone r ->. split; [by eapply Ht | eauto]. }
  assert (forall c, c ∈ num_columns -> oget (num_cells row) c = None ->
            forall r : result Graph, r = Raise (KeyError c) ->
            ~ row_complete row /\
            exists c, c ∈ required_columns /\ r = Raise (KeyError c)) as Fn.
  { intros c Hc Hnone r ->. split; [by eapply Hn | eauto]. }
  unfold load_row.
  destruct (row_text_cases row "Source") as [(src & -> & Hsrc)|[-> ?]];
    [|right; eapply (Ft "Source"); [set_solver | done | done]].
  destruct (row_text_cases row "Destination") as [(dst & -> & Hdst)|[-> ?]];
    [|right; eapply (Ft "Destination"); [set_solver | done | done]].
  destruct (row_num_cases row "Distance (km)") as [(dist & -> & Hdist)|[-> ?]];
    [|right; eapply (Fn "Distance (km)"); [set_solver | done | done]].
  destruct (row_num_cases row "Risk Level") as [(risk & -> & Hrisk)|[-> ?]];
    [|right; eapply (Fn "Risk Level"); [set_solver | done | done]].
  simpl. set (G1 := Nx.add_edge G src dst _).
  assert (src ∈ Nx.nodes G1 /\ dst ∈ Nx.nodes G1) as [Hs1 Hd1].
  { unfold G1. rewrite !add_edge_nodes_elem. auto. }
  destruct (row_num_cases row "Source_Latitude") as [(slat & -> & Hslat)|[-> ?]];
    [|right; eapply (Fn "Source_Latitude"); [set_solver | done | done]].
  simpl. destruct (set_node_attr_ok G1 src (with_latitude slat) Hs1) as [G2 E2].
  rewrite E2. simpl.
  destruct (set_node_attr_spec _ _ _ _ E2) as (_ & N2 & _).
  destruct (row_num_cases row "Source_Longitude") as [(slon & -> & Hslon)|[-> ?]];
    [|right; eapply (Fn "Source_Longitude"); [set_solver | done | done]].
  simpl.
  destruct (set_node_attr_ok G2 src (with_longitude slon)) as [G3 E3];
    [by rewrite N2|].
  rewrite E3. simpl.
  destruct (set_node_attr_spec _ _ _ _ E3) as (_ & N3 & _).
  destruct (row_text_cases row "Source_State") as [(sst & -> & Hsst)|[-> ?]];
    [|right; eapply (Ft "Source_State"); [set_solver | done | done]].
  simpl.
  destruct (set_node_attr_ok G3 src (with_state sst)) as [G4 E4];
    [by rewrite N3, N2|].
  rewrite E4. simpl.
  destruct (set_node_attr_spec _ _ _ _ E4) as (_ & N4 & _).
  destruct (row_num_cases row "Destination_Latitude")
    as [(dlat & -> & Hdlat)|[-> ?]];
    [|right; eapply (Fn "Destination_Latitude"); [set_solver | done | done]].
  simpl.
  destruct (set_node_attr_ok G4 dst (with_latitude dlat)) as [G5 E5];
    [by rewrite N4, N3, N2|].
  rewrite E5. simpl.
  destruct (set_node_attr_spec _ _ _ _ E5) as (_ & N5 & _).
  destruct (row_num_cases row "Destination_Longitude")
    as [(dlon & -> & Hdlon)|[-> ?]];
    [|right; eapply (Fn "Destination_Longitude"); [set_solver | done | done]].
  simpl.
  destruct (set_node_attr_ok G5 dst (with_longitude dlon)) as [G6 E6];
    [by rewrite N5, N4, N3, N2|].
  rewrite E6. simpl.
  destruct (set_node_attr_spec _ _ _ _ E6) as (_ & N6 & _).
  destruct (row_text_cases row "Destination_State")
    as [(dstt & -> & Hdstt)|[-> ?]];
    [|right; eapply (Ft "Destination_State"); [set_solver | done | done]].
  simpl.
  destruct (set_node_attr_ok G6 dst (with_state dstt)) as [G7 E7];
    [by rewrite N6, N5, N4, N3, N2|].
  left. split; [|eauto].
  split; apply Forall_forall; intros c Hc;
    unfold text_columns, num_columns in Hc;
    repeat (apply elem_of_cons in Hc as [->|Hc]; [eauto|]);
    by apply elem_of_nil in Hc.
Qed.


Lemma load_rows_complete rows : forall G,
  (forall row, row ∈ rows -> row_complete row) ->
  exists G', load_rows G rows = Ok G'.
Proof.
  induction rows as [|row rows IH]; intros G Hall; [by eexists|].
  simpl. destruct (load_row_cases G row) as [[Hc [G' ->]]|[Hbad _]].
  - simpl. apply IH. intros r Hr. apply Hall. by right.
  - exfalso. apply Hbad, Hall. left.
Qed.

(** A frame whose rows all have the ten cells is loaded. *)
Lemma load_graph_complete read_csv csv_path rows :
  read_csv csv_path = CsvFrame rows ->
  (forall row, row ∈ rows -> row_complete row) ->
  exists G, load_graph read_csv csv_path = Ok G.
Proof.
  intros Hread. unfold load_graph. rewrite Hread. apply load_rows_complete.
Qed.




(** ** Repeated rows *)

Lemma load_rows_keep_edge s d rows : forall G G',
  loaded G -> load_rows G rows = Ok G' ->
  Forall (fun r => ~ describes r s d) rows ->
  Nx.get_edge G' s d = Nx.get_edge G s d.
Proof.
  induction rows as [|row rows IH]; intros G G' HG Hload Hnot; simpl in Hload.
  - by simplify_eq.
  - destruct (load_row G row) as [G1|] eqn:E; simpl in Hload; [|done].
    apply Forall_cons in Hnot as [Hrow Hnot].
    rewrite (IH G1 G') by eauto using load_row_loaded.
    destruct (load_row_get_edge _ _ _ (ld_wf _ HG) E)
      as (src & dst & dist & risk & Hs & Hd & _ & _ & Hget).
    rewrite Hget. rewrite decide_False; [done|].
    intros [[-> ->]|[-> ->]]; apply Hrow; [by left | by right].
Qed.

(** The edge view lists an unordered pair at most once. *)
Lemma edges_pair_unique G i j u v dd u' v' dd' :
  graph_wf G ->
  Nx.edges G !! i = Some (u, v, dd) ->
  Nx.edges G !! j = Some (u', v', dd') ->
  (u = u' /\ v = v') \/ (u = v' /\ v = u') ->
  i = j.
Proof.
  intros Hwf Hi Hj Hpair.
  pose proof (list_elem_of_lookup_2 _ _ _ Hi) as Ei.
  pose proof (list_elem_of_lookup_2 _ _ _ Hj) as Ej.
  apply elem_edges in Ei as [Gi Pi]; [|done].
  apply elem_edges in Ej as [Gj Pj]; [|done].
  assert (u = u' /\ v = v') as [<- <-].
  { destruct Hpair as [?|[-> ->]]; [done|].
    assert (u' = v'); [|by subst].
    apply (pos_inj _ _ (Nx.nodes G)); [|lia].
    by destruct (get_edge_nodes _ _ _ _ Hwf Gj). }
  assert (dd = dd') as <- by congruence.
  eapply NoDup_lookup; [by apply NoDup_edges | exact Hi | exact Hj].
Qed.

(** C6. When several rows describe the same unordered pair of nodes, the
    edge stored for the pair carries the distance, the risk and the weight
    of the last of them, in both directions, and the graph lists at most
    one edge per unordered pair. *)
Theorem last_row_wins read_csv csv_path rows1 row rows2 G s d dist risk :
  read_csv csv_path = CsvFrame (rows1 ++ row :: rows2) ->
  load_graph read_csv csv_path = Ok G ->
  row_text row "Source" = Ok s ->
  row_text row "Destination" = Ok d ->
  row_num row "Distance (km)" = Ok dist ->
  row_num row "Risk Level" = Ok risk ->
  Forall (fun r => ~ describes r s d) rows2 ->
  Nx.get_edge G s d = Some (mkEdgeAttr dist risk (dist + risk * 50)) /\
  Nx.get_edge G d s = Some (mkEdgeAttr dist risk (dist + risk * 50)) /\
  forall i j u v dd u' v' dd',
    Nx.edges G !! i = Some (u, v, dd) ->
    Nx.edges G !! j = Some (u', v', dd') ->
    (u = u' /\ v = v') \/ (u = v' /\ v = u') ->
    i = j.
Proof.
  intros Hread Hload Hs Hd Hdist Hrisk Hlast.
  pose proof (load_graph_loaded _ _ _ Hload) as HG.
  unfold load_graph in Hload. rewrite Hread, load_rows_app in Hload.
  destruct (load_rows Nx.empty rows1) as [G1|] eqn:E1; simpl in Hload; [|done].
  destruct (load_row G1 row) as [G2|] eqn:E2; simpl in Hload; [|done].
  assert (loaded G1) as HG1
    by (eapply load_rows_loaded; [apply loaded_empty | exact E1]).
  assert (loaded G2) as HG2 by (by eapply load_row_loaded).
  assert (Nx.get_edge G s d = Some (mkEdgeAttr dist risk (dist + risk * 50)))
    as Hsd.
  { rewrite (load_rows_keep_edge s d rows2 G2 G HG2 Hload Hlast).
    destruct (load_row_get_edge _ _ _ (ld_wf _ HG1) E2)
      as (src & dst & di & ri & Hs' & Hd' & Hdi' & Hri' & Hget).
    rewrite Hget. rewrite Hs in Hs'. rewrite Hd in Hd'.
    rewrite Hdist in Hdi'. rewrite Hrisk in Hri'. simplify_eq.
    by rewrite decide_True by auto. }
  split_and!; [done | by rewrite (wf_sym _ (ld_wf _ HG)) |].
  intros i j u v dd u' v' dd'. apply edges_pair_unique, HG.
Qed.

Lemma last_row_wins_witness :
  exists G,
    load_graph (fun _ => CsvFrame rows_with_repeat) "data.csv" = Ok G /\
    Nx.get_edge G "B" "A" = Some (mkEdgeAttr 30 3 180) /\
    Nx.get_edge G "A" "B" = Some (mkEdgeAttr 30 3 180).
Proof.
  eexists. split; [vm_compute; reflexivity|].
  pose proof (last_row_wins (fun _ => CsvFrame rows_with_repeat) "data.csv"
    [mk_row "A" "B" 10 1 (sample_geo "MP") (sample_geo "MH");
     mk_row "B" "C" 7 2 (sample_geo "MH") (sample_geo "KA")]
    (mk_row "B" "A" 30 3 (sample_geo "MH") (sample_geo "MP"))
    [mk_row "C" "D" 4 1 (sample_geo "KA") (sample_geo "TN")]
    _ "B" "A" 30%Z 3%Z eq_refl ltac:(vm_compute; reflexivity)
    eq_refl eq_refl eq_refl eq_refl) as H.
  destruct H as (H1 & H2 & _).
  - apply Forall_cons. split; [|apply Forall_nil_2].
    intros [[H _]|[H _]]; vm_compute in H; discriminate.
  - split; [exact H1 | exact H2].
Defined.

(** ** The name resolver *)

(** The exact step returns the first node equal to the input up to case. *)
Lemma exact_match_first G N l1 l2 :
  Nx.nodes G = l1 ++ N :: l2 ->
  Forall (fun M => lower M <> lower N) l1 ->
  exact_match G (lower N) = Some N.
Proof.
  intros Hnodes Hfirst. unfold exact_match.
  assert (list_find (fun node => lower node = lower N) (Nx.nodes G)
          = Some (length l1, N)) as ->; [|done].
  apply list_find_Some. rewrite Hnodes. split_and!.
  - by rewrite list_lookup_middle.
  - done.
  - intros j y Hj Hlt. rewrite lookup_app_l in Hj by done.
    rewrite Forall_forall in Hfirst. apply Hfirst.
    by eapply list_elem_of_lookup_2.
Qed.

Lemma resolve_exact get_close_matches G input N :
  exact_match G (lower input) = Some N ->
  get_real_node_name get_close_matches G input = Some N.
Proof. unfold get_real_node_name. by intros ->. Qed.






(** When the lower-case forms of the node names are pairwise distinct,
    every node name resolves to itself. *)
Lemma resolve_canonical_distinct get_close_matches G N :
  NoDup (lower <$> Nx.nodes G) -> N ∈ Nx.nodes G ->
  get_real_node_name get_close_matches G N = Some N.
Proof.
  intros Hnd Hin. apply list_elem_of_split in Hin as (l1 & l2 & Heq).
  apply resolve_exact, (exact_match_first _ _ l1 l2); [done|].
  rewrite Heq, fmap_app, fmap_cons in Hnd.
  apply NoDup_app in Hnd as (_ & Hd & _).
  apply Forall_forall. intros M HM Hlow. apply (Hd (lower M)).
  - by apply list_elem_of_fmap_2.
  - rewrite Hlow. left.
Qed.


(** ** The corridor query *)

Lemma falsy_Some s : s <> "" -> falsy (Some s) = false.
Proof. by destruct s. Qed.

(** C9, as amended. A query with a non-empty source and a non-empty
    destination whose destination fails name resolution is answered with
    status 404 and the error "Sanctuary not found. Check spelling.". *)
Theorem unknown_destination get_close_matches G s d :
  s <> "" -> d <> "" ->
  get_real_node_name get_close_matches G d = None ->
  get_corridor get_close_matches G (Some s) (Some d) =
    Ok (Response (ErrorBody "Sanctuary not found. Check spelling.") 404).
Proof.
  intros Hs Hd Hres. unfold get_corridor.
  rewrite (falsy_Some s Hs), (falsy_Some d Hd). simpl.
  rewrite Hres. simpl. by rewrite orb_true_r.
Qed.

Lemma unknown_destination_witness :
  exists G,
    load_graph sample_csv "data.csv" = Ok G /\
    get_corridor no_close_matches G (Some "a") (Some "Atlantis") =
      Ok (Response (ErrorBody "Sanctuary not found. Check spelling.") 404).
Proof.
  eexists. split; [vm_compute; reflexivity|].
  apply (unknown_destination no_close_matches _ "a" "Atlantis").
  - discriminate.
  - discriminate.
  - vm_compute. reflexivity.
Defined.

(** C9 as stated fails: without a source parameter, a query for a
    destination that fails name resolution is answered with status 400. *)
Lemma unknown_destination_missing_source :
  exists G,
    load_graph sample_csv "data.csv" = Ok G /\
    get_real_node_name no_close_matches G "Atlantis" = None /\
    get_corridor no_close_matches G None (Some "Atlantis") =
      Ok (Response (ErrorBody "Missing source or destination") 400).
Proof.
  eexists. split; [vm_compute; reflexivity|].
  split; vm_compute; reflexivity.
Qed.

Lemma get_corridor_resolved get_close_matches G s d src dst :
  s <> "" -> d <> "" -> src <> "" -> dst <> "" ->
  get_real_node_name get_close_matches G s = Some src ->
  get_real_node_name get_close_matches G d = Some dst ->
  get_corridor get_close_matches G (Some s) (Some d) =
    mst ← kruskal_mst G;
    if (negb (Nx.has_node mst src) || negb (Nx.has_node mst dst))%bool then
      Ok (Response (ErrorBody "No path found") 404)
    else
      found ← ShortestPath.shortest_path mst src dst;
      match found with
      | ShortestPath.NetworkXNoPath =>
          Ok (Response (ErrorBody "No path found") 404)
      | ShortestPath.Path node_list =>
          '(edges, total_distance, total_risk) ←
            corridor_edges G (zip node_list (tail node_list)) [] 0 0;
          nodes ← corridor_nodes G node_list [];
          Ok (Response
                (CorridorBody edges nodes total_distance total_risk) 200)
      end.
Proof.
  intros Hs Hd Hsrc Hdst Hrs Hrd. unfold get_corridor.
  rewrite (falsy_Some s Hs), (falsy_Some d Hd). simpl.
  rewrite Hrs, Hrd, (falsy_Some src Hsrc), (falsy_Some dst Hdst). done.
Qed.

(** C10, as amended. A query whose non-empty source and destination resolve
    to the same node is answered with status 200, an empty path, totals 0
    and a node map holding that one node when the node has an edge to
    another node; when its only edge is a self-loop the answer is status
    404 with "No path found". *)
Theorem same_node_corridor get_close_matches read_csv csv_path G s d n :
  load_graph read_csv csv_path = Ok G ->
  s <> "" -> d <> "" -> n <> "" ->
  get_real_node_name get_close_matches G s = Some n ->
  get_real_node_name get_close_matches G d = Some n ->
  ((exists m, m <> n /\ is_Some (Nx.get_edge G n m)) ->
   exists lat lon st,
     get_corridor get_close_matches G (Some s) (Some d) =
       Ok (Response (CorridorBody [] [(n, mkNodeInfo lat lon st)] 0 0) 200)) /\
  (~ (exists m, m <> n /\ is_Some (Nx.get_edge G n m)) ->
   get_corridor get_close_matches G (Some s) (Some d) =
     Ok (Response (ErrorBody "No path found") 404)).
Proof.
  intros Hload Hs Hd Hn Hrs Hrd.
  apply load_graph_loaded in Hload as [Hwf _ Hattr].
  rewrite (get_corridor_resolved _ _ _ _ _ _ Hs Hd Hn Hn Hrs Hrd).
  destruct (kruskal_mst_nodes G Hwf) as (T & -> & HT). simpl. split.
  - intros Hnb. pose proof (proj2 (HT n) Hnb) as Hin. rewrite Hin. simpl.
    unfold ShortestPath.shortest_path. rewrite Hin. simpl.
    rewrite decide_True by done. simpl.
    destruct Hnb as (m & _ & dd & Hm).
    destruct (get_edge_nodes _ _ _ _ Hwf Hm) as [HnG _].
    destruct (oget_keys_Some _ _ HnG) as [a Ha].
    destruct (Hattr n a Ha) as ([lat Hlat] & [lon Hlon] & [st Hst]).
    exists lat, lon, st. unfold node_data. rewrite Ha. simpl.
    rewrite Hlat, Hlon. simpl. unfold state_or_unknown. by rewrite Hst.
  - intros Hnb. destruct (Nx.has_node T n) eqn:E; [|done].
    exfalso. apply Hnb. by apply HT.
Qed.

Lemma same_node_corridor_witness :
  exists G,
    load_graph sample_csv "data.csv" = Ok G /\
    exists lat lon st,
      get_corridor no_close_matches G (Some "b") (Some "B") =
        Ok (Response (CorridorBody [] [("B", mkNodeInfo lat lon st)] 0 0) 200).
Proof.
  eexists. split; [vm_compute; reflexivity|].
  apply (same_node_corridor no_close_matches sample_csv "data.csv" _ "b" "B" "B").
  - vm_compute. reflexivity.
  - discriminate.
  - discriminate.
  - discriminate.
  - vm_compute. reflexivity.
  - vm_compute. reflexivity.
  - exists "A". split; [discriminate|]. vm_compute. eauto.
Defined.

(** C10 as stated fails: after a row from A to A, source and destination
    "a" both resolve to the node A, and the answer is status 404. *)
Lemma same_node_self_loop_not_found :
  exists G,
    load_graph (fun _ => CsvFrame [self_loop_row]) "data.csv" = Ok G /\
    get_real_node_name no_close_matches G "a" = Some "A" /\
    get_corridor no_close_matches G (Some "a") (Some "a") =
      Ok (Response (ErrorBody "No path found") 404).
Proof.
  eexists. split; [vm_compute; reflexivity|].
  split; vm_compute; reflexivity.
Qed.

(** * Further properties of the code *)

(** ** What [load_graph] can answer *)



(** ** What the built graph holds *)

Lemma load_rows_content rows : forall G G',
  loaded G -> load_rows G rows = Ok G' ->
  (forall n, n ∈ Nx.nodes G' <->
     n ∈ Nx.nodes G \/
     exists row, row ∈ rows /\
       (row_text row "Source" = Ok n \/ row_text row "Destination" = Ok n)) /\
  (forall u v, is_Some (Nx.get_edge G' u v) <->
     is_Some (Nx.get_edge G u v) \/
     exists row, row ∈ rows /\ describes row u v).
Proof.
  induction rows as [|row rows IH]; intros G G' HG Hload; simpl in Hload.
  { simplify_eq. split; intros; (split; [by left|]);
      intros [?|(r & Hr & _)]; try done; by apply elem_of_nil in Hr. }
  destruct (load_row G row) as [G1|] eqn:E; simpl in Hload; [|done].
  destruct (IH G1 G' (load_row_loaded _ _ _ HG E) Hload) as [IHn IHe].
  destruct (load_row_get_edge _ _ _ (ld_wf _ HG) E)
    as (src & dst & dist & risk & Hs & Hd & _ & _ & Hget).
  apply load_row_Ok in E
    as (s' & d' & ? & ? & ? & ? & ? & ? & ? & ? & Hs' & Hd' & _ & _ & _ & _ &
        _ & _ & _ & _ & _ & Hnodes & _).
  rewrite Hs in Hs'. rewrite Hd in Hd'. simplify_eq.
  split.
  - intros n. rewrite IHn, Hnodes, add_edge_nodes_elem.
    setoid_rewrite elem_of_cons. split.
    + intros [[->|[->|?]]|(r & Hr & Hrn)]; eauto 8.
    + intros [?|(r & [->|Hr] & Hrn)]; eauto 8.
      destruct Hrn as [Hrn|Hrn]; [rewrite Hs in Hrn | rewrite Hd in Hrn];
        simplify_eq; auto.
  - intros u v. rewrite IHe, Hget. setoid_rewrite elem_of_cons.
    unfold describes. split.
    + intros [Hsome|(r & Hr & Hruv)]; [|eauto 8].
      case_decide as Hc; [|by left]. right. exists row. split; [by left|].
      destruct Hc as [[-> ->]|[-> ->]]; auto.
    + intros [Hsome|(r & [->|Hr] & Hruv)]; [| |eauto 8].
      * left. case_decide; [eauto | done].
      * left. rewrite decide_True; [eauto|].
        rewrite Hs, Hd in Hruv.
        destruct Hruv as [[? ?]|[? ?]]; simplify_eq; auto.
Qed.

(** X2. The graph built from a data frame has as nodes exactly the names
    read from the Source and Destination cells, has an edge between two
    nodes exactly when some row describes that pair in either direction,
    and stores the same attributes under [G[u][v]] and [G[v][u]]. *)
Theorem loaded_graph_content read_csv csv_path rows G :
  read_csv csv_path = CsvFrame rows ->
  load_graph read_csv csv_path = Ok G ->
  (forall n, n ∈ Nx.nodes G <->
     exists row, row ∈ rows /\
       (row_text row "Source" = Ok n \/ row_text row "Destination" = Ok n)) /\
  (forall u v, is_Some (Nx.get_edge G u v) <->
     exists row, row ∈ rows /\ describes row u v) /\
  (forall u v, Nx.get_edge G u v = Nx.get_edge G v u).
Proof.
  intros Hread Hload. pose proof (load_graph_loaded _ _ _ Hload) as HG.
  unfold load_graph in Hload. rewrite Hread in Hload.
  destruct (load_rows_content rows Nx.empty G loaded_empty Hload) as [Hn He].
  split_and!.
  - intros n. rewrite Hn. split; [|by right].
    intros [H|H]; [by apply elem_of_nil in H | done].
  - intros u v. rewrite He. split; [|by right].
    intros [[? H]|H]; [done | done].
  - apply (wf_sym _ (ld_wf _ HG)).
Qed.

Lemma loaded_graph_content_witness :
  exists G,
    load_graph sample_csv "data.csv" = Ok G /\
    (forall n, n ∈ Nx.nodes G <->
       exists row, row ∈ sample_rows /\
         (row_text row "Source" = Ok n \/ row_text row "Destination" = Ok n)) /\
    (forall u v, is_Some (Nx.get_edge G u v) <->
       exists row, row ∈ sample_rows /\ describes row u v).
Proof.
  eexists. split; [vm_compute; reflexivity|].
  destruct (loaded_graph_content sample_csv "data.csv" sample_rows _ eq_refl
              ltac:(vm_compute; reflexivity)) as (H1 & H2 & _).
  split; assumption.
Defined.

(** ** Node attributes *)

Lemma touch_node_attr G u n :
  n <> u -> oget (g_node (Nx.touch G u)) n = oget (g_node G) n.
Proof.
  intros Hne. unfold Nx.touch. destruct (Nx.has_node G u); [done|].
  simpl. by apply oget_oset_ne.
Qed.

Lemma add_edge_node_attr G u v dd n :
  n <> u -> n <> v ->
  oget (g_node (Nx.add_edge G u v dd)) n = oget (g_node G) n.
Proof.
  intros Hu Hv. unfold Nx.add_edge, Nx.set_adj. simpl.
  by rewrite !touch_node_attr.
Qed.

Lemma load_rows_keep_attrs n rows : forall G G',
  load_rows G rows = Ok G' ->
  Forall (fun r => ~ mentions r n) rows ->
  oget (g_node G') n = oget (g_node G) n.
Proof.
  induction rows as [|row rows IH]; intros G G' Hload Hnot; simpl in Hload.
  - by simplify_eq.
  - destruct (load_row G row) as [G1|] eqn:E; simpl in Hload; [|done].
    apply Forall_cons in Hnot as [Hrow Hnot].
    rewrite (IH G1 G' Hload Hnot).
    apply load_row_Ok in E
      as (s & d & ? & ? & ? & ? & ? & ? & ? & ? & Hs & Hd & _ & _ & _ & _ &
          _ & _ & _ & _ & _ & _ & Hattr).
    rewrite Hattr.
    assert (d <> n) by (intros ->; apply Hrow; by right).
    assert (s <> n) by (intros ->; apply Hrow; by left).
    rewrite !decide_False by done. by apply add_edge_node_attr.
Qed.

(** X3. A node carries the latitude, longitude and state written by the
    last row that names it: the Destination cells of that row when the node
    is its destination, its Source cells otherwise. *)
Theorem node_attributes_last_row read_csv csv_path rows1 row rows2 G n
    s d slat slon sst dlat dlon dstt :
  read_csv csv_path = CsvFrame (rows1 ++ row :: rows2) ->
  load_graph read_csv csv_path = Ok G ->
  Forall (fun r => ~ mentions r n) rows2 ->
  row_text row "Source" = Ok s ->
  row_text row "Destination" = Ok d ->
  row_num row "Source_Latitude" = Ok slat ->
  row_num row "Source_Longitude" = Ok slon ->
  row_text row "Source_State" = Ok sst ->
  row_num row "Destination_Latitude" = Ok dlat ->
  row_num row "Destination_Longitude" = Ok dlon ->
  row_text row "Destination_State" = Ok dstt ->
  (d = n ->
   oget (g_node G) n = Some (mkNodeAttr (Some dlat) (Some dlon) (Some dstt))) /\
  (s = n -> d <> n ->
   oget (g_node G) n = Some (mkNodeAttr (Some slat) (Some slon) (Some sst))).
Proof.
  intros Hread Hload Hlast Hs Hd H1 H2 H3 H4 H5 H6.
  unfold load_graph in Hload. rewrite Hread, load_rows_app in Hload.
  destruct (load_rows Nx.empty rows1) as [G1|] eqn:E1; simpl in Hload; [|done].
  destruct (load_row G1 row) as [G2|] eqn:E2; simpl in Hload; [|done].
  rewrite (load_rows_keep_attrs n rows2 G2 G Hload Hlast).
  apply load_row_Ok in E2
    as (s' & d' & ? & ? & ? & ? & ? & ? & ? & ? & Hs' & Hd' & _ & _ &
        H1' & H2' & H3' & H4' & H5' & H6' & _ & _ & Hattr).
  rewrite Hs in Hs'. rewrite Hd in Hd'. rewrite H1 in H1'. rewrite H2 in H2'.
  rewrite H3 in H3'. rewrite H4 in H4'. rewrite H5 in H5'. rewrite H6 in H6'.
  simplify_eq. rewrite Hattr. split.
  - intros ->. by rewrite decide_True.
  - intros -> Hne. rewrite decide_False by done. by rewrite decide_True.
Qed.

Lemma node_attributes_last_row_witness :
  exists G,
    load_graph (fun _ => CsvFrame rows_with_repeat) "data.csv" = Ok G /\
    oget (g_node G) "A" = Some (mkNodeAttr (Some 22%Z) (Some 80%Z) (Some "MP")) /\
    oget (g_node G) "B" = Some (mkNodeAttr (Some 22%Z) (Some 80%Z) (Some "MH")).
Proof.
  eexists. split; [vm_compute; reflexivity|].
  assert (forall n, n = "A" \/ n = "B" ->
            Forall (fun r => ~ mentions r n)
              [mk_row "C" "D" 4 1 (sample_geo "KA") (sample_geo "TN")]) as Hrest.
  { intros n Hn. apply Forall_cons. split; [|apply Forall_nil_2].
    intros [H|H]; vm_compute in H; destruct Hn; simplify_eq. }
  split.
  - apply (node_attributes_last_row (fun _ => CsvFrame rows_with_repeat)
      "data.csv"
      [mk_row "A" "B" 10 1 (sample_geo "MP") (sample_geo "MH");
       mk_row "B" "C" 7 2 (sample_geo "MH") (sample_geo "KA")]
      (mk_row "B" "A" 30 3 (sample_geo "MH") (sample_geo "MP"))
      [mk_row "C" "D" 4 1 (sample_geo "KA") (sample_geo "TN")]
      _ "A" "B" "A" 22%Z 80%Z "MH" 22%Z 80%Z "MP" eq_refl
      ltac:(vm_compute; reflexivity) (Hrest "A" (or_introl eq_refl))
      eq_refl eq_refl eq_refl eq_refl eq_refl eq_refl eq_refl eq_refl).
    reflexivity.
  - apply (node_attributes_last_row (fun _ => CsvFrame rows_with_repeat)
      "data.csv"
      [mk_row "A" "B" 10 1 (sample_geo "MP") (sample_geo "MH");
       mk_row "B" "C" 7 2 (sample_geo "MH") (sample_geo "KA")]
      (mk_row "B" "A" 30 3 (sample_geo "MH") (sample_geo "MP"))
      [mk_row "C" "D" 4 1 (sample_geo "KA") (sample_geo "TN")]
      _ "B" "B" "A" 22%Z 80%Z "MH" 22%Z 80%Z "MP" eq_refl
      ltac:(vm_compute; reflexivity) (Hrest "B" (or_intror eq_refl))
      eq_refl eq_refl eq_refl eq_refl eq_refl eq_refl eq_refl eq_refl).
    + reflexivity.
    + discriminate.
Defined.

(** ** The resolver and the graph *)




(** ** The tree set and the graph *)

(** X5. For every graph built by [load_graph], [kruskal_mst] returns a
    subgraph that spans it: each edge of the tree set is an edge of the
    graph with the same attributes, and two nodes are connected in the tree
    set exactly when they are connected in the graph. *)
Theorem kruskal_spans read_csv csv_path G :
  load_graph read_csv csv_path = Ok G ->
  exists T,
    kruskal_mst G = Ok T /\
    (forall u v dd, Nx.get_edge T u v = Some dd -> Nx.get_edge G u v = Some dd) /\
    (forall x y, connected (Nx.edges T) x y <-> connected (Nx.edges G) x y).
Proof.
  intros Hload. apply load_graph_loaded in Hload as [Hwf _ _].
  destruct (kruskal_mst_ok G Hwf) as (P & R & T & Hmst & Hinv).
  exists T. split_and!; [done | | by eapply kruskal_inv_connected].
  intros u v dd Huv.
  destruct (ki_attr _ _ _ _ _ Hinv u v dd Huv) as [Hin|Hin];
    rewrite sorted_perm in Hin; apply elem_edges in Hin as [Hin _]; try done.
  by rewrite (wf_sym _ Hwf).
Qed.

Lemma kruskal_spans_witness :
  exists G T,
    load_graph sample_csv "data.csv" = Ok G /\
    kruskal_mst G = Ok T /\
    (forall u v dd, Nx.get_edge T u v = Some dd -> Nx.get_edge G u v = Some dd) /\
    (forall x y, connected (Nx.edges T) x y <-> connected (Nx.edges G) x y).
Proof.
  eexists.
  destruct (kruskal_spans sample_csv "data.csv" _
              ltac:(vm_compute; reflexivity)) as (T & H1 & H2 & H3).
  exists T. split; [vm_compute; reflexivity|]. split_and!; assumption.
Defined.

(** ** The greedy choice *)

(** Whether [union] accepts an edge: exactly when its ends are not yet
    connected in the tree built so far. *)
Lemma kruskal_step_choice V seen P R T fuel u v dd P' R' b :
  NoDup V -> kruskal_inv V seen P R T -> u ∈ V -> v ∈ V ->
  length seen < fuel ->
  union fuel P R u v = Ok (P', R', b) ->
  if b then
    ~ connected (Nx.edges T) u v /\
    exists e, (e = (u, v, dd) \/ e = (v, u, dd)) /\
              Nx.edges (Nx.add_edge T u v dd) ≡ₚ e :: Nx.edges T
  else connected (Nx.edges T) u v.
Proof.
  intros Hnd Hinv Hu Hv Hfuel Hunion.
  destruct (union_ok V _ P R fuel u v Hnd (ki_uf _ _ _ _ _ Hinv) Hu Hv Hfuel)
    as (P1 & R1 & b1 & Hunion1 & _ & Hb).
  rewrite Hunion in Hunion1. simplify_eq.
  pose proof (ki_wf _ _ _ _ _ Hinv) as Hwf.
  destruct b1.
  - destruct Hb as (Hdiff & _ & _).
    assert (~ connected (Nx.edges T) u v) as Hnc
      by (by rewrite <- (ki_same _ _ _ _ _ Hinv)).
    split; [done|]. apply add_edge_edges; [done | |].
    + intros ->. apply Hnc, connected_refl.
    + destruct (Nx.get_edge T u v) eqn:E; [|done]. exfalso. apply Hnc.
      apply connected_link, linked_edges; [done|]. rewrite E. eauto.
  - destruct Hb as (Hsame & _). by apply (ki_same _ _ _ _ _ Hinv).
Qed.

Lemma elem_light w es e : e ∈ light w es <-> (Weight e.2 <= w)%Z /\ e ∈ es.
Proof.
  unfold light.
  apply (list_elem_of_filter (fun e : Edge => (Weight e.2 <= w)%Z)).
Qed.

Lemma connected_light_mono w es es' a b :
  (forall e, e ∈ es -> e ∈ es') ->
  connected (light w es) a b -> connected (light w es') a b.
Proof.
  intros Hsub. apply connected_mono. intros x y (dd & H). exists dd.
  rewrite !elem_light in *. naive_solver.
Qed.

Lemma kruskal_loop_light V fuel : forall es seen P R T T',
  NoDup V -> kruskal_inv V seen P R T ->
  (forall u v dd, (u, v, dd) ∈ es -> u ∈ V /\ v ∈ V) ->
  length seen + length es < fuel ->
  StronglySorted weight_le es ->
  (forall e e', e ∈ seen -> e' ∈ es -> weight_le e e') ->
  (forall u v dd, (u, v, dd) ∈ seen ->
     connected (light (Weight dd) (Nx.edges T)) u v) ->
  kruskal_loop fuel P R T es = Ok T' ->
  forall u v dd, (u, v, dd) ∈ seen ++ es ->
    connected (light (Weight dd) (Nx.edges T')) u v.
Proof.
  induction es as [|[[u v] dd] es IH];
    intros seen P R T T' Hnd Hinv Hends Hfuel Hsorted Hle HJ Hloop.
  { simpl in Hloop. simplify_eq. rewrite app_nil_r. done. }
  simpl in Hfuel, Hloop. destruct (Hends u v dd) as [Hu Hv]; [left|].
  destruct (kruskal_step V seen P R T fuel u v dd Hnd Hinv Hu Hv)
    as (P1 & R1 & b & Hunion & Hinv1); [lia|].
  pose proof (kruskal_step_choice V seen P R T fuel u v dd P1 R1 b
                Hnd Hinv Hu Hv ltac:(lia) Hunion) as Hchoice.
  rewrite Hunion in Hloop. simpl in Hloop.
  apply StronglySorted_inv in Hsorted as [Hsorted Hhead].
  rewrite Forall_forall in Hhead.
  intros a c d' Hin.
  change (seen ++ (u, v, dd) :: es) with (seen ++ [(u, v, dd)] ++ es) in Hin.
  rewrite app_assoc in Hin.
  revert a c d' Hin.
  apply (IH (seen ++ [(u, v, dd)]) P1 R1 _ T' Hnd Hinv1); clear IH.
  - intros a c d' Hin. apply (Hends a c d'). by right.
  - rewrite length_app. simpl. lia.
  - done.
  - intros e e' He He'. apply elem_of_app in He as [He|He].
    + apply Hle; [done | by right].
    + apply list_elem_of_singleton in He as ->. by apply Hhead.
  - assert (forall e, e ∈ Nx.edges T ->
              e ∈ Nx.edges (if b then Nx.add_edge T u v dd else T)) as Hgrow.
    { intros e He. destruct b; [|done].
      destruct Hchoice as (_ & e' & _ & Hperm). rewrite Hperm. by right. }
    intros a c d' Hin. apply elem_of_app in Hin as [Hin|Hin].
    + eapply connected_light_mono; [exact Hgrow | by apply HJ].
    + apply list_elem_of_singleton in Hin. simplify_eq. destruct b.
      * destruct Hchoice as (_ & e' & He' & Hperm).
        assert (e' ∈ light (Weight dd) (Nx.edges (Nx.add_edge T u v dd))) as Hl.
        { apply elem_light. split; [destruct He' as [->| ->]; simpl; lia|].
          rewrite Hperm. left. }
        apply connected_link. exists dd. destruct He' as [->| ->]; auto.
      * eapply connected_same_edges; [|exact Hchoice].
        intros [[x y] d0]. rewrite elem_light. split; [tauto|].
        intros He. split; [|done]. simpl.
        apply elem_edges in He as [He _]; [|apply Hinv].
        assert (weight_le (x, y, d0) (u, v, dd)) as Hw; [|exact Hw].
        destruct (ki_attr _ _ _ _ _ Hinv x y d0 He) as [Hs|Hs].
        -- apply (Hle _ _ Hs). left.
        -- apply (Hle _ (u, v, dd)) in Hs; [exact Hs | left].
  - exact Hloop.
Qed.

(** X6. The choice of [kruskal_mst] is greedy by weight: for every edge
    stored in a graph built by [load_graph], its two ends are connected in
    the returned tree set by edges that are no heavier than it (so an edge
    is left out only when lighter or equal edges already join its ends). *)
Theorem kruskal_greedy read_csv csv_path G :
  load_graph read_csv csv_path = Ok G ->
  exists T,
    kruskal_mst G = Ok T /\
    forall u v dd,
      Nx.get_edge G u v = Some dd ->
      connected (light (Weight dd) (Nx.edges T)) u v.
Proof.
  intros Hload. apply load_graph_loaded in Hload as [Hwf _ _].
  destruct (kruskal_mst_ok G Hwf) as (P & R & T & Hmst & _).
  exists T. split; [done|].
  assert (forall u v dd, (u, v, dd) ∈ Nx.edges G ->
            connected (light (Weight dd) (Nx.edges T)) u v) as Hlisted.
  { intros u v dd Hin. rewrite <- (sorted_perm (Nx.edges G)) in Hin.
    unfold kruskal_mst, kruskal_mst_with in Hmst.
    apply (kruskal_loop_light (Nx.nodes G) (S (length (Nx.edges G)))
             (sorted (Nx.edges G)) [] _ _ Nx.empty T
             (wf_nodup _ Hwf) (kruskal_inv_init _)); try done.
    - intros a b d' Hab. rewrite sorted_perm in Hab.
      apply elem_edges in Hab as [Hab _]; [|done].
      by apply get_edge_nodes in Hab.
    - rewrite sorted_perm. simpl. lia.
    - apply sorted_sorted.
    - intros e e' He. by apply elem_of_nil in He.
    - intros a b d' He. by apply elem_of_nil in He. }
  intros u v dd Huv.
  destruct (get_edge_listed _ _ _ _ Hwf Huv) as [Hin|Hin].
  - by apply Hlisted.
  - by apply connected_sym, Hlisted.
Qed.

Lemma kruskal_greedy_witness :
  exists G T,
    load_graph sample_csv "data.csv" = Ok G /\
    kruskal_mst G = Ok T /\
    forall u v dd,
      Nx.get_edge G u v = Some dd ->
      connected (light (Weight dd) (Nx.edges T)) u v.
Proof.
  eexists.
  destruct (kruskal_greedy sample_csv "data.csv" _
              ltac:(vm_compute; reflexivity)) as (T & H1 & H2).
  exists T. split; [vm_compute; reflexivity|]. split; assumption.
Defined.

(** ** The union-find closures *)



(** X8. [union] answers [False] exactly when its two arguments already
    share a representative; in either case the classes afterwards are the
    old ones with those of the two arguments merged, and the number of
    representatives drops by one exactly when it answers [True]. *)
Theorem union_merges V K P R fuel u v :
  NoDup V -> uf_inv V K P R -> u ∈ V -> v ∈ V -> K < fuel ->
  exists P' R' b,
    union fuel P R u v = Ok (P', R', b) /\
    (b = false <-> same_set P u v) /\
    (forall x y, x ∈ V -> y ∈ V ->
       same_set P' x y <->
       same_set P x y \/ (same_set P x u /\ same_set P v y) \/
       (same_set P x v /\ same_set P u y)) /\
    nroots P' V + (if b then 1 else 0) = nroots P V.
Proof.
  intros Hnd Hinv Hu Hv Hfuel.
  destruct (union_ok V K P R fuel u v Hnd Hinv Hu Hv Hfuel)
    as (P' & R' & b & Hunion & _ & Hb).
  exists P', R', b. split; [done|]. destruct b.
  - destruct Hb as (Hdiff & Hsame & Hn). split_and!; [|done|lia].
    split; [done | tauto].
  - destruct Hb as (Hsame & Heqv). split_and!; [done | |].
    + intros x y Hx Hy. rewrite (same_set_equiv _ _ Heqv). split; [by left|].
      assert (forall a b c, same_set P a b -> same_set P b c -> same_set P a c)
        as Htrans.
      { intros a b c (r & Ha & Hb) (s & Hb' & Hc).
        rewrite (root_det _ _ _ _ Hb' Hb) in Hc. by exists r. }
      intros [?|[[H1 H2]|[H1 H2]]]; [done | |].
      * eauto.
      * eauto using same_set_sym.
    + rewrite (nroots_equiv _ _ _ Heqv). lia.
Qed.

Lemma union_merges_witness :
  exists P' R' b,
    union 1 (list_to_map ((fun n => (n, n)) <$> ["A"; "B"; "C"]))
            (list_to_map ((fun n => (n, O)) <$> ["A"; "B"; "C"])) "A" "C"
      = Ok (P', R', b) /\
    nroots P' ["A"; "B"; "C"] + (if b then 1 else 0) =
    nroots (list_to_map ((fun n => (n, n)) <$> ["A"; "B"; "C"])) ["A"; "B"; "C"].
Proof.
  assert (NoDup ["A"; "B"; "C"]) as Hnd
    by (apply (bool_decide_eq_true_1 _); vm_compute; reflexivity).
  assert ("A" ∈ ["A"; "B"; "C"]) as Ha
    by (apply (bool_decide_eq_true_1 _); vm_compute; reflexivity).
  assert ("C" ∈ ["A"; "B"; "C"]) as Hc
    by (apply (bool_decide_eq_true_1 _); vm_compute; reflexivity).
  destruct (union_merges ["A"; "B"; "C"] 0 _ _ 1 "A" "C" Hnd
              (ki_uf _ _ _ _ _ (kruskal_inv_init ["A"; "B"; "C"])) Ha Hc)
    as (P' & R' & b & H1 & _ & _ & H2); [lia|].
  exists P', R', b. split; assumption.
Defined.

(** ** Paths found on the tree set *)

Lemma elem_oset {A} (d : odict A) k v e : e ∈ oset d k v -> e = (k, v) \/ e ∈ d.
Proof.
  induction d as [|[k' v'] d IH]; simpl.
  - rewrite list_elem_of_singleton. auto.
  - case_decide; rewrite !elem_of_cons; [tauto|].
    intros [?|?]; [tauto|]. destruct IH; auto.
Qed.

Lemma is_walk_single G u : is_walk G [u].
Proof. intros i a b Hi Hj. by destruct i. Qed.

Lemma is_walk_snoc G p u v :
  is_walk G p -> last p = Some u -> is_Some (Nx.get_edge G u v) ->
  is_walk G (p ++ [v]).
Proof.
  intros Hw Hlast Huv i a b Hi Hj.
  destruct (decide (S i < length p)) as [Hlt|Hge].
  - rewrite lookup_app_l in Hi by lia. rewrite lookup_app_l in Hj by done.
    by eapply Hw.
  - assert (S i = length p) as Hi'.
    { apply lookup_lt_Some in Hj. rewrite length_app in Hj. simpl in Hj. lia. }
    rewrite lookup_app_l in Hi by lia.
    rewrite lookup_app_r, Hi', Nat.sub_diag in Hj by lia. simpl in Hj.
    rewrite last_lookup in Hlast.
    replace (pred (length p)) with i in Hlast by lia. by simplify_eq.
Qed.

Lemma pick_min_elem tent settled u d p :
  ShortestPath.pick_min tent settled = Some (u, d, p) -> (u, (d, p)) ∈ tent.
Proof.
  unfold ShortestPath.pick_min.
  assert (forall best,
    fold_left
      (fun best '(n, (d, p)) =>
         if ShortestPath.is_settled settled n then best
         else match best with
              | None => Some (n, d, p)
              | Some (_, d', _) => if (d <? d')%Z then Some (n, d, p) else best
              end) tent best = Some (u, d, p) ->
    best = Some (u, d, p) \/ (u, (d, p)) ∈ tent) as H.
  { induction tent as [|[n [d0 p0]] tent IH]; intros best; simpl; [auto|].
    intros Hf. apply IH in Hf as [Hf|Hf]; [|right; by right].
    destruct (ShortestPath.is_settled settled n); [by left|].
    destruct best as [[[n1 d1] p1]|].
    - destruct (d0 <? d1)%Z; [|by left]. simplify_eq. right. left.
    - simplify_eq. right. left. }
  intros Hf. by destruct (H None Hf).
Qed.

Lemma relax_ok G source u d p settled nbrs : forall tent,
  tentative_ok G source tent ->
  head p = Some source -> last p = Some u -> is_walk G p ->
  (forall v dd, (v, dd) ∈ nbrs -> is_Some (Nx.get_edge G u v)) ->
  tentative_ok G source (ShortestPath.relax d p settled tent nbrs).
Proof.
  unfold ShortestPath.relax.
  induction nbrs as [|[v dd] nbrs IH]; intros tent Hok Hh Hl Hw Hadj; [done|].
  simpl. apply IH; try done; [|intros v' d' Hin; apply (Hadj v' d'); by right].
  assert (tentative_ok G source (oset tent v ((d + Weight dd)%Z, p ++ [v])))
    as Hnew.
  { intros x dx px Hin. apply elem_oset in Hin as [Heq|Hin]; [|exact (Hok x dx px Hin)].
    simplify_eq. split_and!.
    - destruct p; [done | done].
    - apply last_snoc.
    - eapply is_walk_snoc; [done | done |]. apply (Hadj v dd). left. }
  destruct (ShortestPath.is_settled settled v); [done|].
  destruct (oget tent v) as [[old pold]|]; [|done].
  by destruct (_ <? _)%Z.
Qed.

Lemma adjacency_get_edge G u v dd :
  (v, dd) ∈ default [] (oget (g_adj G) u) -> is_Some (Nx.get_edge G u v).
Proof.
  unfold Nx.get_edge. destruct (oget (g_adj G) u) as [nbrs|]; simpl.
  - intros Hin. apply oget_keys_Some.
    by apply (list_elem_of_fmap_2 fst) in Hin.
  - intros Hin. by apply elem_of_nil in Hin.
Qed.

Lemma rounds_ok G source k : forall tent settled,
  tentative_ok G source tent ->
  tentative_ok G source (ShortestPath.rounds k G tent settled).
Proof.
  induction k as [|k IH]; intros tent settled Hok; simpl; [done|].
  destruct (ShortestPath.pick_min tent settled) as [[[u d] p]|] eqn:E; [|done].
  apply IH. apply pick_min_elem in E.
  destruct (Hok u d p E) as (Hh & Hl & Hw).
  eapply relax_ok; try done. intros v dd. apply adjacency_get_edge.
Qed.

(** What [shortest_path] answers is a walk of the graph between the two
    ends, and it raises only for an end that is not a node. *)
Lemma shortest_path_sound G source target :
  Nx.has_node G source = true -> Nx.has_node G target = true ->
  exists found,
    ShortestPath.shortest_path G source target = Ok found /\
    forall p, found = ShortestPath.Path p ->
      head p = Some source /\ last p = Some target /\ is_walk G p.
Proof.
  intros Hs Ht. unfold ShortestPath.shortest_path. rewrite Hs, Ht. simpl.
  case_decide as Heq.
  - eexists. split; [done|]. intros p Hp. simplify_eq.
    split_and!; [done | done | apply is_walk_single].
  - set (tent := ShortestPath.rounds _ _ _ _).
    assert (tentative_ok G source tent) as Hok.
    { apply rounds_ok. intros v d p Hin.
      apply list_elem_of_singleton in Hin. simplify_eq.
      split_and!; [done | done | apply is_walk_single]. }
    destruct (oget tent target) as [[d p]|] eqn:E.
    + eexists. split; [done|]. intros p' Hp. simplify_eq.
      apply (Hok target d). by apply oget_Some_elem.
    + eexists. split; [done|]. intros p' Hp. done.
Qed.



(** ** Assembling the answer *)

Lemma sumZ_app l1 l2 : sumZ (l1 ++ l2) = (sumZ l1 + sumZ l2)%Z.
Proof. unfold sumZ. induction l1 as [|x l1 IH]; simpl; lia. Qed.

Lemma sumZ_cons x l : sumZ (x :: l) = (x + sumZ l)%Z.
Proof. done. Qed.

Lemma corridor_edges_result G pairs : forall acc td tr es' td' tr',
  corridor_edges G pairs acc td tr = Ok (es', td', tr') ->
  exists es,
    es' = acc ++ es /\
    Forall2 (leg_follows G) pairs es /\
    Forall (fun e =>
      exists au av, oget (g_node G) (pe_source e) = Some au /\
                    oget (g_node G) (pe_destination e) = Some av /\
                    pe_source_state e = state_or_unknown au /\
                    pe_destination_state e = state_or_unknown av /\
                    pe_source_full e =
                      pe_source e +:+ " (" +:+ state_or_unknown au +:+ ")" /\
                    pe_destination_full e =
                      pe_destination e +:+ " (" +:+ state_or_unknown av +:+ ")")
      es /\
    td' = (td + sumZ (pe_distance <$> es))%Z /\
    tr' = (tr + sumZ (pe_risk <$> es))%Z.
Proof.
  induction pairs as [|[u v] pairs IH]; intros acc td tr es' td' tr' H.
  { simpl in H. simplify_eq. exists []. rewrite app_nil_r.
    split_and!; [done | constructor | constructor | simpl; lia | simpl; lia]. }
  simpl in H. unfold edge_data, node_data in H.
  destruct (oget (g_adj G) u) as [nbrs|] eqn:Eu; [|done].
  destruct (oget nbrs v) as [dd|] eqn:Ev; [|done]. simpl in H.
  destruct (oget (g_node G) u) as [au|] eqn:Eau; [|done]. simpl in H.
  destruct (oget (g_node G) v) as [av|] eqn:Eav; [|done]. simpl in H.
  apply IH in H as (es & -> & Hlegs & Hst & -> & ->).
  eexists (_ :: es). split_and!.
  - by rewrite <- app_assoc.
  - constructor; [|done]. split_and!; [done | done|]. exists dd.
    simpl. split_and!; [|done..]. unfold Nx.get_edge. by rewrite Eu.
  - constructor; [|done]. simpl. eauto 10.
  - rewrite fmap_cons, sumZ_cons. simpl. lia.
  - rewrite fmap_cons, sumZ_cons. simpl. lia.
Qed.


Lemma corridor_nodes_result G node_list : forall acc nodes,
  corridor_nodes G node_list acc = Ok nodes ->
  (forall n, n ∈ okeys nodes <-> n ∈ okeys acc \/ n ∈ node_list) /\
  (forall n info, n ∈ node_list -> oget nodes n = Some info ->
     exists a, oget (g_node G) n = Some a /\
               latitude a = Some (ni_latitude info) /\
               longitude a = Some (ni_longitude info) /\
               ni_state info = state_or_unknown a) /\
  (forall n, n ∉ node_list -> oget nodes n = oget acc n).
Proof.
  induction node_list as [|m node_list IH]; intros acc nodes H.
  { simpl in H. simplify_eq. split_and!.
    - intros n. split; [by left|]. intros [?|Hn]; [done|].
      by apply elem_of_nil in Hn.
    - intros n info Hn. by apply elem_of_nil in Hn.
    - done. }
  simpl in H. unfold node_data in H.
  destruct (oget (g_node G) m) as [a|] eqn:Ea; [|done]. simpl in H.
  destruct (latitude a) as [lat|] eqn:Elat; [|done]. simpl in H.
  destruct (longitude a) as [lon|] eqn:Elon; [|done]. simpl in H.
  apply IH in H as (Hkeys & Hinfo & Hkeep). split_and!.
  - intros n. rewrite Hkeys, okeys_oset_elem, elem_of_cons. tauto.
  - intros n info Hn Hget. destruct (decide (n ∈ node_list)) as [Hin|Hout].
    + by apply Hinfo.
    + apply elem_of_cons in Hn as [->|?]; [|done].
      rewrite Hkeep, oget_oset_eq in Hget by done. simplify_eq.
      exists a. simpl. by rewrite Elat, Elon.
  - intros n Hn. rewrite not_elem_of_cons in Hn. destruct Hn as [Hne Hn].
    rewrite Hkeep by done. by apply oget_oset_ne.
Qed.


(** ** The query handler on a built graph *)



Lemma zip_tail_pairs (p : list string) i u v :
  p !! i = Some u -> p !! S i = Some v -> (u, v) ∈ zip p (tail p).
Proof.
  revert i. induction p as [|a p IH]; intros i Hi Hj; [done|].
  destruct p as [|b p]; [done|]. simpl. destruct i as [|i].
  - simpl in *. simplify_eq. left.
  - right. by apply (IH i).
Qed.




Lemma falsy_false x : falsy x = false -> exists s, x = Some s /\ s <> "".
Proof. destruct x as [[|a s]|]; try done. intros _. by eexists. Qed.

(** X10. A 200 answer describes a walk of the tree set from the resolved
    source to the resolved destination: its legs are the consecutive pairs
    of that walk, each with the distance and risk of the edge of the full
    graph and with the states of its two ends ("Unknown" for a missing
    one) spelled out in the full names, the totals are the sums over the
    legs, and the node map holds exactly the nodes of the walk with their
    latitude, longitude and state in the full graph. *)
Theorem corridor_answer_shape get_close_matches G source destination
    path nodes td tr :
  get_corridor get_close_matches G source destination =
    Ok (Response (CorridorBody path nodes td tr) 200) ->
  exists s d src dst T p,
    source = Some s /\ destination = Some d /\
    get_real_node_name get_close_matches G s = Some src /\
    get_real_node_name get_close_matches G d = Some dst /\
    kruskal_mst G = Ok T /\
    head p = Some src /\ last p = Some dst /\ is_walk T p /\
    Forall2 (leg_follows G) (zip p (tail p)) path /\
    Forall (fun e =>
      exists au av,
        oget (g_node G) (pe_source e) = Some au /\
        oget (g_node G) (pe_destination e) = Some av /\
        pe_source_state e = state_or_unknown au /\
        pe_destination_state e = state_or_unknown av /\
        pe_source_full e =
          pe_source e +:+ " (" +:+ state_or_unknown au +:+ ")" /\
        pe_destination_full e =
          pe_destination e +:+ " (" +:+ state_or_unknown av +:+ ")") path /\
    td = sumZ (pe_distance <$> path) /\
    tr = sumZ (pe_risk <$> path) /\
    (forall n, n ∈ okeys nodes <-> n ∈ p) /\
    (forall n info, oget nodes n = Some info ->
       exists a, oget (g_node G) n = Some a /\
                 latitude a = Some (ni_latitude info) /\
                 longitude a = Some (ni_longitude info) /\
                 ni_state info = state_or_unknown a).
Proof.
  unfold get_corridor. intros H.
  destruct (falsy source || falsy destination)%bool eqn:E1; [done|].
  apply orb_false_elim in E1 as [Es Ed].
  apply falsy_false in Es as (s & -> & _). apply falsy_false in Ed as (d & -> & _).
  simpl in H.
  destruct (falsy (get_real_node_name get_close_matches G s)
            || falsy (get_real_node_name get_close_matches G d))%bool eqn:E2;
    [done|].
  apply orb_false_elim in E2 as [Es Ed].
  apply falsy_false in Es as (src & Hsrc & _).
  apply falsy_false in Ed as (dst & Hdst & _).
  rewrite Hsrc, Hdst in H. simpl in H.
  destruct (kruskal_mst G) as [T|] eqn:Hmst; [|done]. simpl in H.
  destruct (Nx.has_node T src) eqn:Hs; simpl in H; [|done].
  destruct (Nx.has_node T dst) eqn:Hd; simpl in H; [|done].
  destruct (shortest_path_sound T src dst Hs Hd) as (found & Hfound & Hp).
  rewrite Hfound in H. simpl in H. destruct found as [p|]; [|done].
  destruct (Hp p eq_refl) as (Hh & Hl & Hw).
  destruct (corridor_edges G (zip p (tail p)) [] 0 0)
    as [[[path' td'] tr']|] eqn:Hedges; [|done]. simpl in H.
  destruct (corridor_nodes G p []) as [nodes'|] eqn:Hn; [|done]. simpl in H.
  simplify_eq.
  apply corridor_edges_result in Hedges as (es & -> & Hlegs & Hfull & -> & ->).
  destruct (corridor_nodes_result _ _ _ _ Hn) as (Hk & Hinfo & _).
  assert (forall n, n ∈ okeys nodes <-> n ∈ p) as Hkeys.
  { intros n. rewrite Hk. split; [|by right]. intros [H|H]; [|done].
    by apply elem_of_nil in H. }
  exists s, d, src, dst, T, p. split_and!; try done.
  intros n info Hget. apply Hinfo; [|done].
  apply Hkeys. by eapply oget_Some_keys.
Qed.

Lemma corridor_answer_shape_witness :
  exists path nodes td tr s d src dst T p,
    get_corridor no_close_matches sample_graph (Some "c") (Some "a") =
      Ok (Response (CorridorBody path nodes td tr) 200) /\
    Some "c" = Some s /\ Some "a" = Some d /\
    get_real_node_name no_close_matches sample_graph s = Some src /\
    get_real_node_name no_close_matches sample_graph d = Some dst /\
    kruskal_mst sample_graph = Ok T /\
    head p = Some src /\ last p = Some dst /\ is_walk T p /\
    Forall2 (leg_follows sample_graph) (zip p (tail p)) path /\
    td = sumZ (pe_distance <$> path) /\
    tr = sumZ (pe_risk <$> path).
Proof.
  assert (exists path nodes td tr,
            get_corridor no_close_matches sample_graph (Some "c") (Some "a") =
            Ok (Response (CorridorBody path nodes td tr) 200))
    as (path & nodes & td & tr & Hq)
    by (eexists _, _, _, _; vm_compute; reflexivity).
  destruct (corridor_answer_shape _ _ _ _ _ _ _ _ Hq)
    as (s & d & src & dst & T & p & H).
  exists path, nodes, td, tr, s, d, src, dst, T, p.
  split; [exact Hq|].
  destruct H as (? & ? & ? & ? & ? & ? & ? & ? & ? & _ & ? & ? & _).
  split_and!; assumption.
Defined.

(** ** Reaching every connected node *)









(** ** The fuzzy step *)




(** ** The order of the nodes *)

Lemma load_rows_nodes_extend rows : forall G G',
  load_rows G rows = Ok G' -> exists ext, Nx.nodes G' = Nx.nodes G ++ ext.
Proof.
  induction rows as [|row rows IH]; intros G G' H; simpl in H.
  - simplify_eq. exists []. by rewrite app_nil_r.
  - destruct (load_row G row) as [G1|] eqn:E; simpl in H; [|done].
    destruct (IH _ _ H) as [ext2 ->].
    apply load_row_Ok in E
      as (s & d & di & ri & ? & ? & ? & ? & ? & ? &
          _ & _ & _ & _ & _ & _ & _ & _ & _ & _ & _ & -> & _).
    destruct (add_edge_nodes_ext G s d (mkEdgeAttr di ri (di + ri * 50)))
      as [ext1 ->].
    exists (ext1 ++ ext2). by rewrite app_assoc.
Qed.

(** X13. Nodes are kept in the order of their first appearance: loading
    further rows only appends new nodes after those of the rows before, so
    the node that the resolver meets first among names equal up to case is
    the one the dataset mentions first. *)
Theorem node_order_first_appearance read_csv csv_path rows1 rows2 G :
  read_csv csv_path = CsvFrame (rows1 ++ rows2) ->
  load_graph read_csv csv_path = Ok G ->
  exists G1 ext,
    load_rows Nx.empty rows1 = Ok G1 /\
    Nx.nodes G = Nx.nodes G1 ++ ext /\
    forall n, n ∈ ext -> n ∉ Nx.nodes G1.
Proof.
  intros Hread Hload. pose proof (load_graph_loaded _ _ _ Hload) as HG.
  unfold load_graph in Hload. rewrite Hread, load_rows_app in Hload.
  destruct (load_rows Nx.empty rows1) as [G1|] eqn:E1; simpl in Hload; [|done].
  destruct (load_rows_nodes_extend _ _ _ Hload) as [ext Hext].
  exists G1, ext. split_and!; [done | done|].
  intros n Hn Hn1. pose proof (wf_nodup _ (ld_wf _ HG)) as Hnd.
  change (okeys (g_node G)) with (Nx.nodes G) in Hnd. rewrite Hext in Hnd.
  apply NoDup_app in Hnd as (_ & Hd & _). by apply (Hd n).
Qed.

Lemma node_order_first_appearance_witness :
  exists G1 ext,
    load_rows Nx.empty [mk_row "Kanha" "Pench" 10 1 (sample_geo "MP") (sample_geo "MP")]
      = Ok G1 /\
    Nx.nodes (match load_graph (fun _ => CsvFrame rows_same_name) "data.csv" with
              | Ok G => G | Raise _ => Nx.empty end) = Nx.nodes G1 ++ ext /\
    forall n, n ∈ ext -> n ∉ Nx.nodes G1.
Proof.
  apply (node_order_first_appearance (fun _ => CsvFrame rows_same_name)
           "data.csv"
           [mk_row "Kanha" "Pench" 10 1 (sample_geo "MP") (sample_geo "MP")]
           [mk_row "KANHA" "Satpura" 20 2 (sample_geo "MP") (sample_geo "MP")]).
  - reflexivity.
  - vm_compute. reflexivity.
Defined.
